(** * sal::Adjacency_list and sal::Adjacency_list_directed

    A shallow embedding of [graph/adjacency_list.h]: the ordered map the two
    graph classes are built on, the undirected and the directed store, their
    constructors and their vertex iterators, followed by the properties of the
    specification that were checked against them. *)

From Stdlib Require Import ZArith List Bool Lia Sorted.
From Stdlib Require String Ascii DecimalString.
Import ListNotations.
Import String.StringSyntax Ascii.AsciiSyntax.
#[local] Delimit Scope string_scope with string.
#[local] Delimit Scope char_scope with char.
Local Open Scope Z_scope.

Set Implicit Arguments.

(** ** Vertex identifiers

    The template parameter [V]: a copyable type with the [operator<] that
    [std::map<V, _>] compares keys with, and a value-initialised [V{}].  The
    laws are the ones [std::map] asks of its comparison, with equivalent keys
    being equal keys. *)

Class Ident (V : Type) : Type := {
  id_lt : V -> V -> bool;
  id_default : V;
  id_lt_irrefl : forall a, id_lt a a = false;
  id_lt_trans : forall a b c,
      id_lt a b = true -> id_lt b c = true -> id_lt a c = true;
  id_lt_total : forall a b,
      id_lt a b = false -> id_lt b a = false -> a = b
}.

(** [V = int], the default template argument; [int{}] is 0. *)
#[export] Instance Ident_int : Ident Z :=
  {| id_lt := Z.ltb;
     id_default := 0;
     id_lt_irrefl := Z.ltb_irrefl;
     id_lt_trans := fun a b c Hab Hbc =>
       proj2 (Z.ltb_lt a c)
         (Z.lt_trans a b c (proj1 (Z.ltb_lt a b) Hab) (proj1 (Z.ltb_lt b c) Hbc));
     id_lt_total := fun a b Hab Hba =>
       Z.le_antisymm a b (proj1 (Z.ltb_ge b a) Hba) (proj1 (Z.ltb_ge a b) Hab) |}.

(** ** [std::map<K, T>]

    The map is the sequence of its (key, value) nodes in iteration order.
    Every operation walks that sequence with [operator<] only, as the tree
    search does. *)

Module StdMap.
Abbreviation t K T := (list (K * T)).

Section Map.
Context {K : Type} {IK : Ident K} {T : Type}.

(** [m.find(k)]: [None] is [m.end()]. *)
Fixpoint find (k : K) (m : t K T) : option T :=
  match m with
  | [] => None
  | (k', x) :: m' =>
      if id_lt k k' then None
      else if id_lt k' k then find k m'
      else Some x
  end.

(** [m.try_emplace(k, d)]: a node for [k] is created at its place in the
    order when there is none; an existing node is left alone. *)
Fixpoint try_emplace (k : K) (d : T) (m : t K T) : t K T :=
  match m with
  | [] => [(k, d)]
  | (k', x) :: m' =>
      if id_lt k k' then (k, d) :: m
      else if id_lt k' k then (k', x) :: try_emplace k d m'
      else m
  end.

(** Writing through the reference to the mapped value of [k]. *)
Fixpoint update (k : K) (f : T -> T) (m : t K T) : t K T :=
  match m with
  | [] => []
  | (k', x) :: m' =>
      if id_lt k k' then m
      else if id_lt k' k then (k', x) :: update k f m'
      else (k', f x) :: m'
  end.

(** [m[k]] with [d = T()]: the map after the call; the reference it returns
    is the node of [k], read with [find] and written with [update]. *)
Definition subscript (k : K) (d : T) (m : t K T) : t K T := try_emplace k d m.

(** [m[k] = x]. *)
Definition subscript_assign (k : K) (d x : T) (m : t K T) : t K T :=
  update k (fun _ => x) (subscript k d m).

(** [m.size()], a [size_t]. *)
Definition size (m : t K T) : Z := Z.of_nat (length m).

(** [m.empty()]. *)
Definition empty (m : t K T) : bool :=
  match m with [] => true | _ :: _ => false end.

(** The keys in iteration order. *)
Definition keys (m : t K T) : list K := List.map fst m.

(** The representation invariant of the tree: keys strictly increasing. *)
Definition ordered (m : t K T) : Prop :=
  StronglySorted (fun a b => id_lt a b = true) (keys m).

(** The position [m.find(k)] designates: that of the node of [k], or
    [length m] for [m.end()]. *)
Fixpoint find_pos (k : K) (m : t K T) : nat :=
  match m with
  | [] => O
  | (k', _) :: m' =>
      if id_lt k k' then length m
      else if id_lt k' k then S (find_pos k m')
      else O
  end.

(** Writing through an iterator at position [i]: the mapped value of that
    node is replaced; there is no node to write to at [end()]. *)
Fixpoint write_at (i : nat) (x : T) (m : t K T) : option (t K T) :=
  match m, i with
  | [], _ => None
  | (k, _) :: m', O => Some ((k, x) :: m')
  | n :: m', S i' => option_map (cons n) (write_at i' x m')
  end.
End Map.
Arguments size : simpl never.
End StdMap.

(** [size_t] arithmetic is modulo 2^64. *)
Definition size_t_modulus : Z := 2 ^ 64.
Definition size_t_wrap (z : Z) : Z := z mod size_t_modulus.

(** ** Edge records

    [WEdge] and [UEdge]; their fields [source], [dest] and [weight] carry a
    prefix here, the two records sharing one name space. *)

Record WEdge (V : Type) : Type := mkWEdge {
  wsource : V;
  wdest : V;
  wweight : Z
}.

Record UEdge (V : Type) : Type := mkUEdge {
  usource : V;
  udest : V
}.

(** The element type of the iterator-range constructors: anything with
    [source], [dest] and [get_weight()]. *)
Class Edge_record (V E : Type) : Type := {
  source : E -> V;
  dest : E -> V;
  get_weight : E -> Z
}.

(** ** Output streams

    An [ostream] is the sequence of characters written to it so far, and
    [os << x] appends the characters of [x].  For an [int] these are its
    decimal digits after a minus sign if it is negative, the stream being in
    its default state; for a vertex identifier they are what its own
    [operator<<] writes. *)

Class Streamable (V : Type) : Type := {
  put : V -> String.string
}.

Definition put_int (z : Z) : String.string :=
  DecimalString.NilEmpty.string_of_int (Z.to_int z).

#[export] Instance Streamable_int : Streamable Z := {| put := put_int |}.

(** The number of times a character occurs in what was written. *)
Fixpoint count_char (c : Ascii.ascii) (s : String.string) : nat :=
  match s with
  | String.EmptyString => O
  | String.String a s' => (if Ascii.eqb a c then 1 else 0) + count_char c s'
  end.

(** ** The undirected store *)

Module Adjacency_list.
(** [Edges = std::map<V, int>] and [Adj = std::map<V, Edges>]. *)
Abbreviation Edges V := (StdMap.t V Z).
Abbreviation Adj V := (StdMap.t V (StdMap.t V Z)).

Section Graph.
Context {V : Type} {IV : Ident V}.

Definition default_graph : Adj V := [].

(** [adj[u][v] = w]: both subscripts create what is missing ([Edges{}] for
    the vertex, [int{}] for the weight) before the weight is assigned. *)
Definition set_weight (adj : Adj V) (u v : V) (w : Z) : Adj V :=
  StdMap.update u (StdMap.subscript_assign v 0 w) (StdMap.subscript u [] adj).

Definition num_vertex (adj : Adj V) : Z := StdMap.size adj.

(** The loop of [num_edge]: [edges += v->second.size()] over all nodes. *)
Definition count_entries (adj : Adj V) : Z :=
  fold_left (fun edges v => size_t_wrap (edges + StdMap.size (snd v))) adj 0.

Definition num_edge (adj : Adj V) : Z := Z.shiftr (count_entries adj) 1.

Definition is_vertex (adj : Adj V) (v : V) : bool :=
  match StdMap.find v adj with
  | None => false
  | Some _ => true
  end.

Definition is_edge (adj : Adj V) (u v : V) : bool :=
  match StdMap.find u adj with
  | None => false
  | Some nbrs =>
      match StdMap.find v nbrs with
      | None => false
      | Some _ => true
      end
  end.

Definition weight (adj : Adj V) (u v : V) : Z :=
  match StdMap.find u adj with
  | None => 0
  | Some nbrs =>
      match StdMap.find v nbrs with
      | None => 0
      | Some w => w
      end
  end.

Definition degree (adj : Adj V) (v : V) : Z :=
  match StdMap.find v adj with
  | None => 0
  | Some nbrs => StdMap.size nbrs
  end.

(** [adjacent(v)]: the range of neighbours, empty when [v] is absent. *)
Definition adjacent (adj : Adj V) (v : V) : Edges V :=
  match StdMap.find v adj with
  | None => []
  | Some nbrs => nbrs
  end.

Definition min_vertex (adj : Adj V) : V :=
  if StdMap.empty adj then id_default
  else match adj with
       | [] => id_default
       | (v, _) :: _ => v
       end.

Definition add_vertex (adj : Adj V) (v : V) : Adj V := StdMap.subscript v [] adj.

Definition add_edge (adj : Adj V) (u v : V) (w : Z) : Adj V :=
  set_weight (set_weight adj u v w) v u w.

(** The three constructors, each a loop over its argument. *)
Definition from_uedges (l : list (UEdge V)) : Adj V :=
  fold_left
    (fun adj edge =>
       set_weight (set_weight adj (usource edge) (udest edge) 1)
                  (udest edge) (usource edge) 1)
    l default_graph.

Definition from_wedges (l : list (WEdge V)) : Adj V :=
  fold_left
    (fun adj edge =>
       set_weight
         (set_weight adj (wsource edge) (wdest edge) (wweight edge))
         (wdest edge) (wsource edge) (wweight edge))
    l default_graph.

Definition from_range {E : Type} {RE : Edge_record V E} (l : list E) : Adj V :=
  fold_left
    (fun adj edge =>
       set_weight
         (set_weight adj (source edge) (dest edge) (get_weight edge))
         (dest edge) (source edge) (get_weight edge))
    l default_graph.

(** *** Vertex iterators

    A [Vertex_iterator] is a position in the node sequence; [end()] is the
    position past the last node.  A reverse iterator holds the position
    after the node it designates, as [std::reverse_iterator] does. *)

Record Vertex_iterator : Type := mkIter { cur : nat }.

Definition begin (adj : Adj V) : Vertex_iterator := mkIter 0.
Definition end_ (adj : Adj V) : Vertex_iterator := mkIter (length adj).
Definition rbegin (adj : Adj V) : Vertex_iterator := mkIter (length adj).
Definition rend (adj : Adj V) : Vertex_iterator := mkIter 0.

Definition iter_eq (a b : Vertex_iterator) : bool := Nat.eqb (cur a) (cur b).

(** [*it] and [++it] of the forward iterator; dereferencing [end()] has no
    result. *)
Definition deref (adj : Adj V) (it : Vertex_iterator) : option V :=
  option_map fst (nth_error adj (cur it)).
Definition incr (it : Vertex_iterator) : Vertex_iterator := mkIter (S (cur it)).

(** The same for the reverse iterator. *)
Definition rderef (adj : Adj V) (it : Vertex_iterator) : option V :=
  match cur it with
  | O => None
  | S n => option_map fst (nth_error adj n)
  end.
Definition rincr (it : Vertex_iterator) : Vertex_iterator :=
  mkIter (Nat.pred (cur it)).

(** The loop [for (it = first; it != last; ++it)] collecting [*it], the
    vertices visited in order; [fuel] bounds the number of loop tests. *)
Fixpoint walk (star : Vertex_iterator -> option V)
         (step : Vertex_iterator -> Vertex_iterator)
         (fuel : nat) (it last : Vertex_iterator) : option (list V) :=
  match fuel with
  | O => None
  | S fuel' =>
      if iter_eq it last then Some []
      else match star it with
           | None => None
           | Some v =>
               option_map (cons v) (walk star step fuel' (step it) last)
           end
  end.

Definition forward_iteration (adj : Adj V) : option (list V) :=
  walk (deref adj) incr (S (length adj)) (begin adj) (end_ adj).

Definition reverse_iteration (adj : Adj V) : option (list V) :=
  walk (rderef adj) rincr (S (length adj)) (rbegin adj) (rend adj).

(** [vertex(v)]: the iterator [adj.find(v)] wrapped. *)
Definition vertex (adj : Adj V) (v : V) : Vertex_iterator :=
  mkIter (StdMap.find_pos v adj).

(** [--it]. *)
Definition decr (it : Vertex_iterator) : Vertex_iterator :=
  mkIter (Nat.pred (cur it)).

(** *** Neighbour iterators

    An [Adjacent_iterator] wraps an iterator of one neighbour map: the map is
    the one of the vertex node at position [owner] ([None] for a
    value-initialised iterator, which belongs to no map), and [acur] is the
    position in it. *)

Record Adjacent_iterator : Type := mkAdjacent {
  owner : option nat;
  acur : nat
}.

Definition neighbours_at (adj : Adj V) (o : option nat) : Edges V :=
  match o with
  | None => []
  | Some p =>
      match nth_error adj p with
      | None => []
      | Some n => snd n
      end
  end.

(** [adjacent(v)], both overloads: the first and the past-the-end iterator of
    the neighbours of [v], two value-initialised iterators when [v] is
    absent. *)
Definition adjacent_iterators (adj : Adj V) (v : V) :
  Adjacent_iterator * Adjacent_iterator :=
  let v_itr := StdMap.find_pos v adj in
  if negb (Nat.eqb v_itr (length adj))
  then (mkAdjacent (Some v_itr) 0,
        mkAdjacent (Some v_itr) (length (neighbours_at adj (Some v_itr))))
  else (mkAdjacent None 0, mkAdjacent None 0).

(** [Vertex_iterator::begin()], [end()] and [adjacent()]. *)
Definition vertex_begin (it : Vertex_iterator) : Adjacent_iterator :=
  mkAdjacent (Some (cur it)) 0.
Definition vertex_end (adj : Adj V) (it : Vertex_iterator) : Adjacent_iterator :=
  mkAdjacent (Some (cur it)) (length (neighbours_at adj (Some (cur it)))).
Definition vertex_adjacent (adj : Adj V) (it : Vertex_iterator) :
  Adjacent_iterator * Adjacent_iterator :=
  (vertex_begin it, vertex_end adj it).

(** The operators of [Adjacent_iterator]: [==], [++], [--], [dest()] (also
    [*it]) and reading [weight()]. *)
Definition adjacent_eq (a b : Adjacent_iterator) : bool :=
  match owner a, owner b with
  | None, None => Nat.eqb (acur a) (acur b)
  | Some p, Some q => Nat.eqb p q && Nat.eqb (acur a) (acur b)
  | _, _ => false
  end.
Definition adjacent_incr (it : Adjacent_iterator) : Adjacent_iterator :=
  mkAdjacent (owner it) (S (acur it)).
Definition adjacent_decr (it : Adjacent_iterator) : Adjacent_iterator :=
  mkAdjacent (owner it) (Nat.pred (acur it)).
Definition adjacent_dest (adj : Adj V) (it : Adjacent_iterator) : option V :=
  option_map fst (nth_error (neighbours_at adj (owner it)) (acur it)).
Definition adjacent_weight (adj : Adj V) (it : Adjacent_iterator) : option Z :=
  option_map snd (nth_error (neighbours_at adj (owner it)) (acur it)).

(** [it.weight() = x] through the reference the mutable iterator returns;
    no result when [it] designates no node. *)
Definition adjacent_set_weight (adj : Adj V) (it : Adjacent_iterator) (x : Z) :
  option (Adj V) :=
  match owner it with
  | None => None
  | Some p =>
      match StdMap.write_at (acur it) x (neighbours_at adj (Some p)) with
      | None => None
      | Some nbrs' => StdMap.write_at p nbrs' adj
      end
  end.

(** The loop [for (it = first; it != last; ++it)] over neighbours,
    collecting [it.dest()] and [it.weight()]. *)
Fixpoint adjacent_walk (adj : Adj V) (fuel : nat)
         (it last : Adjacent_iterator) : option (list (V * Z)) :=
  match fuel with
  | O => None
  | S fuel' =>
      if adjacent_eq it last then Some []
      else match adjacent_dest adj it, adjacent_weight adj it with
           | Some b, Some w =>
               option_map (cons (b, w))
                          (adjacent_walk adj fuel' (adjacent_incr it) last)
           | _, _ => None
           end
  end.

Definition neighbour_iteration (adj : Adj V) (v : V) : option (list (V * Z)) :=
  let r := adjacent_iterators adj v in
  adjacent_walk adj (S (acur (snd r))) (fst r) (snd r).

(** The nested traversal: for each vertex from [begin()] to [end()], its
    neighbours from [v.begin()] to [v.end()]. *)
Fixpoint nested_walk (adj : Adj V) (fuel : nat) (it last : Vertex_iterator) :
  option (list (V * V * Z)) :=
  match fuel with
  | O => None
  | S fuel' =>
      if iter_eq it last then Some []
      else match deref adj it,
                 adjacent_walk adj (S (acur (vertex_end adj it)))
                               (vertex_begin it) (vertex_end adj it),
                 nested_walk adj fuel' (incr it) last with
           | Some v, Some nbrs, Some rest =>
               Some (List.map (fun e => (v, fst e, snd e)) nbrs ++ rest)
           | _, _, _ => None
           end
  end.

Definition nested_iteration (adj : Adj V) : option (list (V * V * Z)) :=
  nested_walk adj (S (length adj)) (begin adj) (end_ adj).

(** *** Printing

    [os << g]: every vertex, an opening parenthesis, its neighbours as
    [dest:weight,] with a backspace character after them when there are any,
    a closing parenthesis and a space. *)
Context {SV : Streamable V}.

Definition print_neighbours (os : String.string) (nbrs : Edges V) :
  String.string :=
  fold_left
    (fun os neighbour =>
       String.append
         (String.append
            (String.append (String.append os (put (fst neighbour))) ":")
            (put_int (snd neighbour)))
         ",")
    nbrs os.

Definition print (os : String.string) (g : Adj V) : String.string :=
  fold_left
    (fun os vertex =>
       let os := String.append (String.append os (put (fst vertex))) "(" in
       let os :=
         if negb (StdMap.empty (snd vertex))
         then String.append (print_neighbours os (snd vertex))
                            (String.String "008"%char String.EmptyString)
         else os in
       String.append os ") ")
    g os.
End Graph.
End Adjacency_list.

(** ** The directed store

    The derived class: same storage, [num_edge] and [add_edge] overridden and
    its own constructors; everything else is inherited. *)

Module Adjacency_list_directed.
Section Graph.
Context {V : Type} {IV : Ident V}.

Abbreviation Adj := (Adjacency_list.Adj V).

Definition num_edge (adj : Adj) : Z := Adjacency_list.count_entries adj.

Definition add_edge (adj : Adj) (u v : V) (w : Z) : Adj :=
  StdMap.subscript v [] (Adjacency_list.set_weight adj u v w).

Definition from_wedges (l : list (WEdge V)) : Adj :=
  fold_left
    (fun adj edge =>
       StdMap.subscript (wdest edge) []
         (Adjacency_list.set_weight adj (wsource edge) (wdest edge)
                                    (wweight edge)))
    l Adjacency_list.default_graph.

Definition from_uedges (l : list (UEdge V)) : Adj :=
  fold_left
    (fun adj edge =>
       StdMap.subscript (udest edge) []
         (Adjacency_list.set_weight adj (usource edge) (udest edge) 1))
    l Adjacency_list.default_graph.

Definition from_range {E : Type} {RE : Edge_record V E} (l : list E) : Adj :=
  fold_left
    (fun adj edge =>
       StdMap.subscript (dest edge) []
         (Adjacency_list.set_weight adj (source edge) (dest edge)
                                    (get_weight edge)))
    l Adjacency_list.default_graph.
End Graph.
End Adjacency_list_directed.

(** ** Sequences of calls on a store

    What a caller can do to a graph after constructing it: [add_vertex] and
    [add_edge], the latter dispatched on the dynamic type of the store. *)

Inductive store_kind : Type := Undirected | Directed.

Section Calls.
Context {V : Type} {IV : Ident V}.

Inductive call : Type :=
| Add_vertex (v : V)
| Add_edge (u v : V) (w : Z).

Definition add_edge_of (k : store_kind) :
  Adjacency_list.Adj V -> V -> V -> Z -> Adjacency_list.Adj V :=
  match k with
  | Undirected => Adjacency_list.add_edge
  | Directed => Adjacency_list_directed.add_edge
  end.

Definition exec (k : store_kind) (adj : Adjacency_list.Adj V) (c : call) :
  Adjacency_list.Adj V :=
  match c with
  | Add_vertex v => Adjacency_list.add_vertex adj v
  | Add_edge u v w => add_edge_of k adj u v w
  end.

Definition run (k : store_kind) (cs : list call) (adj : Adjacency_list.Adj V) :
  Adjacency_list.Adj V :=
  fold_left (exec k) cs adj.

(** The identifiers a call names. *)
Definition named (c : call) : list V :=
  match c with
  | Add_vertex v => [v]
  | Add_edge u v _ => [u; v]
  end.

Definition never_inserted (u : V) (cs : list call) : Prop :=
  Forall (fun c => ~ In u (named c)) cs.

(** No call inserts the edge (u,v): no [add_edge(u, v, _)] and, on the
    undirected store, no [add_edge(v, u, _)]. *)
Definition edge_never_inserted (k : store_kind) (u v : V) (cs : list call) :
  Prop :=
  Forall (fun c => match c with
                   | Add_vertex _ => True
                   | Add_edge a b _ =>
                       (a, b) <> (u, v) /\
                       (k = Undirected -> (a, b) <> (v, u))
                   end) cs.

(** The store holds an entry for (u,v): a node of [u] whose neighbour map
    has a node of [v]. *)
Definition stored (adj : Adjacency_list.Adj V) (u v : V) : Prop :=
  exists nbrs w, In (u, nbrs) adj /\ In (v, w) nbrs.

(** No call inserts an edge from a vertex to itself. *)
Definition no_self_loop (cs : list call) : Prop :=
  Forall (fun c => match c with
                   | Add_vertex _ => True
                   | Add_edge u v _ => u <> v
                   end) cs.

(** The vertices of a graph, in iteration order, and the sum of their
    degrees. *)
Definition vertices (adj : Adjacency_list.Adj V) : list V := StdMap.keys adj.

Definition degree_sum (adj : Adjacency_list.Adj V) : Z :=
  fold_right Z.add 0 (List.map (Adjacency_list.degree adj) (vertices adj)).

(** Bulk insertion as the specification words it: the empty graph, then one
    [add_edge] per record, in order. *)
Definition add_edges (k : store_kind) (l : list (V * V * Z)) :
  Adjacency_list.Adj V :=
  run k (List.map (fun e => Add_edge (fst (fst e)) (snd (fst e)) (snd e)) l)
      Adjacency_list.default_graph.

(** An edge record as the triple it stands for; an edge without a weight
    has weight 1. *)
Definition triple_of_UEdge (e : UEdge V) : V * V * Z :=
  (usource e, udest e, 1).
Definition triple_of_WEdge (e : WEdge V) : V * V * Z :=
  (wsource e, wdest e, wweight e).
Definition triple_of_record {E : Type} {RE : Edge_record V E} (e : E) :
  V * V * Z :=
  (source e, dest e, get_weight e).

(** The invariant of the undirected store: an entry for (a,b) goes with one
    for (b,a). *)
Definition symmetric (adj : Adjacency_list.Adj V) : Prop :=
  forall a b, Adjacency_list.is_edge adj a b = Adjacency_list.is_edge adj b a.

(** The entry of (a,b), if any. *)
Definition lookup (adj : Adjacency_list.Adj V) (a b : V) : option Z :=
  match StdMap.find a adj with
  | None => None
  | Some nbrs => StdMap.find b nbrs
  end.

(** Both levels of the store keep the invariant of [std::map]. *)
Definition well_formed (adj : Adjacency_list.Adj V) : Prop :=
  StdMap.ordered adj /\ Forall (fun n => StdMap.ordered (snd n)) adj.

(** The sum of the sizes of all neighbour sets. *)
Definition entry_sum (adj : Adjacency_list.Adj V) : Z :=
  fold_right Z.add 0 (List.map (fun n => StdMap.size (snd n)) adj).
End Calls.

(** ** Facts about the ordered map *)

Section IdentFacts.
Context {K : Type} {IK : Ident K}.

Lemma id_lt_asym (a b : K) : id_lt a b = true -> id_lt b a = false.
Proof.
  intros Hab. destruct (id_lt b a) eqn:Hba; [|reflexivity].
  pose proof (id_lt_trans _ _ _ Hab Hba) as Haa.
  rewrite id_lt_irrefl in Haa. discriminate.
Qed.

Lemma id_lt_neq (a b : K) : id_lt a b = true -> a <> b.
Proof.
  intros Hab ->. rewrite id_lt_irrefl in Hab. discriminate.
Qed.

Lemma id_eq_dec (a b : K) : {a = b} + {a <> b}.
Proof.
  destruct (id_lt a b) eqn:Hab.
  - right. now apply id_lt_neq.
  - destruct (id_lt b a) eqn:Hba.
    + right. intros ->. rewrite id_lt_irrefl in Hba. discriminate.
    + left. now apply id_lt_total.
Defined.
End IdentFacts.

(** Case analysis on every comparison in sight, closing the cases the order
    laws exclude. *)
Ltac id_absurd :=
  match goal with
  | H : id_lt ?a ?a = true |- _ =>
      rewrite id_lt_irrefl in H; discriminate H
  | H1 : id_lt ?a ?b = true, H2 : id_lt ?b ?a = true |- _ =>
      rewrite (id_lt_asym _ _ H1) in H2; discriminate H2
  | H1 : id_lt ?a ?b = true, H2 : id_lt ?b ?c = true,
    H3 : id_lt ?a ?c = false |- _ =>
      rewrite (id_lt_trans _ _ _ H1 H2) in H3; discriminate H3
  | H1 : id_lt ?a ?b = false, H2 : id_lt ?b ?a = false, N : ?a <> ?b |- _ =>
      exfalso; apply N; exact (id_lt_total _ _ H1 H2)
  | H1 : id_lt ?a ?b = false, H2 : id_lt ?b ?a = false, N : ?b <> ?a |- _ =>
      exfalso; apply N; exact (id_lt_total _ _ H2 H1)
  end.

Ltac id_cases :=
  repeat match goal with
         | |- context [id_lt ?a ?b] =>
             let E := fresh "Hlt" in destruct (id_lt a b) eqn:E
         end;
  try id_absurd.

Ltac id_same :=
  repeat match goal with
         | H1 : id_lt ?a ?b = false, H2 : id_lt ?b ?a = false |- _ =>
             first [ constr_eq a b; fail 1
                   | pose proof (id_lt_total _ _ H1 H2); subst; clear H2 ]
         end.

Section StdMapFacts.
Context {K : Type} {IK : Ident K} {T : Type}.
Implicit Types (m : StdMap.t K T) (k : K) (x d : T).

Lemma find_try_emplace_same k d m :
  StdMap.find k (StdMap.try_emplace k d m) =
  match StdMap.find k m with Some x => Some x | None => Some d end.
Proof.
  induction m as [|[k' x] m IH]; simpl.
  - now rewrite id_lt_irrefl.
  - destruct (id_lt k k') eqn:H1; simpl.
    + now rewrite id_lt_irrefl.
    + destruct (id_lt k' k) eqn:H2; simpl; rewrite H1, H2; auto.
Qed.

Lemma find_try_emplace_other k k0 d m :
  k0 <> k -> StdMap.find k0 (StdMap.try_emplace k d m) = StdMap.find k0 m.
Proof.
  intros N. induction m as [|[k' x] m IH]; simpl.
  - id_cases; reflexivity.
  - destruct (id_lt k k') eqn:H1; simpl.
    + id_cases; try reflexivity.
    + destruct (id_lt k' k) eqn:H2; simpl; [|reflexivity].
      rewrite IH. reflexivity.
Qed.

Lemma try_emplace_present k d m x :
  StdMap.find k m = Some x -> StdMap.try_emplace k d m = m.
Proof.
  induction m as [|[k' y] m IH]; simpl; [discriminate|].
  destruct (id_lt k k'); [discriminate|].
  destruct (id_lt k' k); [|reflexivity].
  intros H. now rewrite IH.
Qed.

Lemma find_update_same k f m :
  StdMap.find k (StdMap.update k f m) = option_map f (StdMap.find k m).
Proof.
  induction m as [|[k' x] m IH]; simpl; [reflexivity|].
  destruct (id_lt k k') eqn:H1; simpl.
  - now rewrite H1.
  - destruct (id_lt k' k) eqn:H2; simpl; rewrite H1, H2; auto.
Qed.

Lemma find_update_other k k0 f m :
  k0 <> k -> StdMap.find k0 (StdMap.update k f m) = StdMap.find k0 m.
Proof.
  intros N. induction m as [|[k' x] m IH]; simpl; [reflexivity|].
  destruct (id_lt k k') eqn:H1; simpl; [reflexivity|].
  destruct (id_lt k' k) eqn:H2; simpl.
  - now rewrite IH.
  - id_same. id_cases; reflexivity.
Qed.

Lemma update_absent k f m :
  StdMap.find k m = None -> StdMap.update k f m = m.
Proof.
  induction m as [|[k' y] m IH]; simpl; [reflexivity|].
  destruct (id_lt k k'); [reflexivity|].
  destruct (id_lt k' k); [|discriminate].
  intros H. now rewrite IH.
Qed.

Lemma keys_update k f m : StdMap.keys (StdMap.update k f m) = StdMap.keys m.
Proof.
  unfold StdMap.keys.
  induction m as [|[k' x] m IH]; simpl; [reflexivity|].
  destruct (id_lt k k'); [reflexivity|].
  destruct (id_lt k' k); simpl; [|reflexivity].
  now rewrite IH.
Qed.

Lemma length_update k f m : length (StdMap.update k f m) = length m.
Proof.
  pose proof (f_equal (@length K) (keys_update k f m)) as H.
  unfold StdMap.keys in H. now rewrite !length_map in H.
Qed.

Lemma size_try_emplace k d m :
  StdMap.size (StdMap.try_emplace k d m) =
  StdMap.size m + match StdMap.find k m with Some _ => 0 | None => 1 end.
Proof.
  unfold StdMap.size.
  induction m as [|[k' x] m IH]; simpl length; simpl StdMap.find.
  - reflexivity.
  - simpl StdMap.try_emplace.
    destruct (id_lt k k'); simpl length; [lia|].
    destruct (id_lt k' k); simpl length; lia.
Qed.

Lemma size_subscript_assign k d x m :
  StdMap.size (StdMap.subscript_assign k d x m) =
  StdMap.size m + match StdMap.find k m with Some _ => 0 | None => 1 end.
Proof.
  unfold StdMap.subscript_assign, StdMap.subscript, StdMap.size.
  rewrite length_update. apply size_try_emplace.
Qed.

Lemma find_subscript_assign_same k d x m :
  StdMap.find k (StdMap.subscript_assign k d x m) = Some x.
Proof.
  unfold StdMap.subscript_assign, StdMap.subscript.
  rewrite find_update_same, find_try_emplace_same.
  now destruct (StdMap.find k m).
Qed.

Lemma find_subscript_assign_other k k0 d x m :
  k0 <> k ->
  StdMap.find k0 (StdMap.subscript_assign k d x m) = StdMap.find k0 m.
Proof.
  intros N. unfold StdMap.subscript_assign, StdMap.subscript.
  now rewrite find_update_other, find_try_emplace_other.
Qed.
End StdMapFacts.

Section OrderedFacts.
Context {K : Type} {IK : Ident K} {T : Type}.
Implicit Types (m : StdMap.t K T) (k : K) (x d : T).

Lemma keys_try_emplace k k0 d m :
  In k0 (StdMap.keys (StdMap.try_emplace k d m)) <->
  k0 = k \/ In k0 (StdMap.keys m).
Proof.
  unfold StdMap.keys.
  induction m as [|[k' x] m IH]; simpl.
  - intuition.
  - destruct (id_lt k k') eqn:H1; simpl; [intuition|].
    destruct (id_lt k' k) eqn:H2; simpl.
    + rewrite IH. intuition.
    + id_same. intuition.
Qed.

Lemma ordered_try_emplace k d m :
  StdMap.ordered m -> StdMap.ordered (StdMap.try_emplace k d m).
Proof.
  unfold StdMap.ordered.
  induction m as [|[k' x] m IH]; simpl; intros Hm.
  - repeat constructor.
  - inversion Hm as [|? ? Hs Hall]; subst.
    destruct (id_lt k k') eqn:H1; simpl.
    + constructor; [exact Hm|].
      constructor; [exact H1|].
      rewrite Forall_forall in *. intros y Hy.
      eapply id_lt_trans; [exact H1|]. now apply Hall.
    + destruct (id_lt k' k) eqn:H2; simpl; [|exact Hm].
      constructor; [now apply IH|].
      rewrite Forall_forall in *. intros y Hy.
      apply (keys_try_emplace k y d m) in Hy.
      destruct Hy as [->|Hy]; [exact H2|now apply Hall].
Qed.

Lemma ordered_update k f m :
  StdMap.ordered m -> StdMap.ordered (StdMap.update k f m).
Proof.
  unfold StdMap.ordered. now rewrite keys_update.
Qed.

Lemma find_Some_In k x m : StdMap.find k m = Some x -> In (k, x) m.
Proof.
  induction m as [|[k' y] m IH]; simpl; [discriminate|].
  destruct (id_lt k k') eqn:H1; [discriminate|].
  destruct (id_lt k' k) eqn:H2.
  - intros H. right. now apply IH.
  - intros [= ->]. id_same. now left.
Qed.

Lemma find_In_ordered k x m :
  StdMap.ordered m -> In (k, x) m -> StdMap.find k m = Some x.
Proof.
  unfold StdMap.ordered.
  induction m as [|[k' y] m IH]; simpl; intros Hm Hin; [contradiction|].
  inversion Hm as [|? ? Hs Hall]; subst.
  destruct Hin as [[= -> ->]|Hin].
  - now rewrite id_lt_irrefl.
  - assert (Hk : id_lt k' k = true).
    { rewrite Forall_forall in Hall. apply Hall.
      change k with (fst (k, x)). now apply in_map. }
    rewrite (id_lt_asym _ _ Hk), Hk. now apply IH.
Qed.

Lemma find_key_iff k m :
  StdMap.ordered m ->
  (In k (StdMap.keys m) <-> exists x, StdMap.find k m = Some x).
Proof.
  intros Hm. unfold StdMap.keys. rewrite in_map_iff. split.
  - intros [[k0 x] [E Hin]]. simpl in E. subst k0.
    exists x. now apply find_In_ordered.
  - intros [x Hx]. exists (k, x). split; [reflexivity|].
    now apply find_Some_In.
Qed.

Lemma find_head k x m : StdMap.find k ((k, x) :: m) = Some x.
Proof. simpl. now rewrite id_lt_irrefl. Qed.
End OrderedFacts.

(** ** Facts about [adj[u][v] = w] and [adj[v]] *)

Section GraphFacts.
Context {V : Type} {IV : Ident V}.
Implicit Types (adj : Adjacency_list.Adj V) (u v : V) (w : Z).

Import Adjacency_list.

Lemma find_set_weight_same adj u v w :
  StdMap.find u (set_weight adj u v w) =
  Some (StdMap.subscript_assign v 0 w (adjacent adj u)).
Proof.
  unfold set_weight, StdMap.subscript, adjacent.
  rewrite find_update_same, find_try_emplace_same.
  now destruct (StdMap.find u adj).
Qed.

Lemma find_set_weight_other adj u v w u0 :
  u0 <> u -> StdMap.find u0 (set_weight adj u v w) = StdMap.find u0 adj.
Proof.
  intros N. unfold set_weight, StdMap.subscript.
  now rewrite find_update_other, find_try_emplace_other.
Qed.

Lemma weight_set_weight_same adj u v w : weight (set_weight adj u v w) u v = w.
Proof.
  unfold weight.
  now rewrite find_set_weight_same, find_subscript_assign_same.
Qed.

Lemma is_edge_set_weight_same adj u v w :
  is_edge (set_weight adj u v w) u v = true.
Proof.
  unfold is_edge.
  now rewrite find_set_weight_same, find_subscript_assign_same.
Qed.

(** An assignment to [adj[u][v]] leaves every other pair as it was. *)
Lemma find_pair_set_weight_other adj u v w a b :
  (a, b) <> (u, v) ->
  match StdMap.find a (set_weight adj u v w) with
  | None => None
  | Some nbrs => StdMap.find b nbrs
  end =
  match StdMap.find a adj with
  | None => None
  | Some nbrs => StdMap.find b nbrs
  end.
Proof.
  intros N. destruct (id_eq_dec a u) as [->|Na].
  - assert (Nb : b <> v) by (intros ->; now apply N).
    rewrite find_set_weight_same, find_subscript_assign_other by exact Nb.
    unfold adjacent. destruct (StdMap.find u adj); [reflexivity|].
    simpl. reflexivity.
  - now rewrite find_set_weight_other.
Qed.

Lemma is_edge_set_weight_other adj u v w a b :
  (a, b) <> (u, v) -> is_edge (set_weight adj u v w) a b = is_edge adj a b.
Proof.
  intros N. pose proof (find_pair_set_weight_other adj w N) as H.
  unfold is_edge.
  destruct (StdMap.find a (set_weight adj u v w)),
    (StdMap.find a adj); try rewrite H; try reflexivity.
  - now rewrite <- H.
Qed.

Lemma weight_set_weight_other adj u v w a b :
  (a, b) <> (u, v) -> weight (set_weight adj u v w) a b = weight adj a b.
Proof.
  intros N. pose proof (find_pair_set_weight_other adj w N) as H.
  unfold weight.
  destruct (StdMap.find a (set_weight adj u v w)),
    (StdMap.find a adj); try rewrite H; try reflexivity.
  - now rewrite <- H.
Qed.

Lemma is_vertex_set_weight adj u v w a :
  is_vertex (set_weight adj u v w) a =
  if id_eq_dec a u then true else is_vertex adj a.
Proof.
  unfold is_vertex. destruct (id_eq_dec a u) as [->|N].
  - now rewrite find_set_weight_same.
  - now rewrite find_set_weight_other.
Qed.

Lemma is_vertex_subscript adj v a :
  is_vertex (StdMap.subscript v [] adj) a =
  if id_eq_dec a v then true else is_vertex adj a.
Proof.
  unfold is_vertex, StdMap.subscript. destruct (id_eq_dec a v) as [->|N].
  - rewrite find_try_emplace_same. now destruct (StdMap.find v adj).
  - now rewrite find_try_emplace_other.
Qed.

(** [adj[v];] changes no edge and no weight. *)
Lemma adjacent_subscript adj v a :
  adjacent (StdMap.subscript v [] adj) a = adjacent adj a.
Proof.
  unfold adjacent, StdMap.subscript. destruct (id_eq_dec a v) as [->|N].
  - rewrite find_try_emplace_same. now destruct (StdMap.find v adj).
  - now rewrite find_try_emplace_other.
Qed.

Lemma is_edge_adjacent adj a b :
  is_edge adj a b =
  match StdMap.find b (adjacent adj a) with Some _ => true | None => false end.
Proof.
  unfold is_edge, adjacent. now destruct (StdMap.find a adj).
Qed.

Lemma weight_adjacent adj a b :
  weight adj a b =
  match StdMap.find b (adjacent adj a) with Some x => x | None => 0 end.
Proof.
  unfold weight, adjacent. now destruct (StdMap.find a adj).
Qed.

Lemma degree_adjacent adj a : degree adj a = StdMap.size (adjacent adj a).
Proof.
  unfold degree, adjacent. now destruct (StdMap.find a adj).
Qed.
End GraphFacts.

(** ** Edge insertion *)

(** C1. On the undirected store one call [add_edge(u, v, w)] leaves both
    (u,v) and (v,u) present, each with weight [w]. *)
Theorem undirected_add_edge_symmetric
  {V : Type} {IV : Ident V} (adj : Adjacency_list.Adj V) (u v : V) (w : Z) :
  let adj' := Adjacency_list.add_edge adj u v w in
  Adjacency_list.is_edge adj' u v = true /\
  Adjacency_list.is_edge adj' v u = true /\
  Adjacency_list.weight adj' u v = w /\
  Adjacency_list.weight adj' v u = w.
Proof.
  unfold Adjacency_list.add_edge. cbv zeta.
  destruct (id_eq_dec u v) as [->|N].
  - repeat split;
      auto using is_edge_set_weight_same, weight_set_weight_same.
  - assert (P : (u, v) <> (v, u)) by (intros [= E _]; now apply N).
    rewrite (is_edge_set_weight_other _ w P), (weight_set_weight_other _ w P).
    repeat split;
      auto using is_edge_set_weight_same, weight_set_weight_same.
Qed.

(** C2, as the code has it. On the directed store [add_edge(u, v, w)] leaves
    (u,v) present with weight [w] and [v] a vertex; when [u] and [v] differ,
    (v,u) is an edge afterwards exactly when it was one before, and a [v] that
    was absent has an empty neighbour set afterwards. *)
Theorem directed_add_edge_one_way
  {V : Type} {IV : Ident V} (adj : Adjacency_list.Adj V) (u v : V) (w : Z) :
  let adj' := Adjacency_list_directed.add_edge adj u v w in
  Adjacency_list.is_edge adj' u v = true /\
  Adjacency_list.weight adj' u v = w /\
  Adjacency_list.is_vertex adj' v = true /\
  (u <> v ->
   Adjacency_list.is_edge adj' v u = Adjacency_list.is_edge adj v u /\
   Adjacency_list.weight adj' v u = Adjacency_list.weight adj v u /\
   (Adjacency_list.is_vertex adj v = false ->
    Adjacency_list.adjacent adj' v = [] /\ Adjacency_list.degree adj' v = 0)).
Proof.
  unfold Adjacency_list_directed.add_edge. cbv zeta.
  rewrite !is_edge_adjacent, !weight_adjacent, !degree_adjacent.
  rewrite !adjacent_subscript, is_vertex_subscript.
  rewrite <- !is_edge_adjacent, <- !weight_adjacent.
  split; [apply is_edge_set_weight_same|].
  split; [apply weight_set_weight_same|].
  split; [now destruct (id_eq_dec v v)|].
  intros N.
  assert (P : (v, u) <> (u, v)) by (intros [= E _]; now apply N).
  rewrite (is_edge_set_weight_other _ w P), (weight_set_weight_other _ w P).
  repeat split.
  - unfold Adjacency_list.adjacent, Adjacency_list.is_vertex in *.
    rewrite find_set_weight_other by congruence.
    now destruct (StdMap.find v adj).
  - unfold Adjacency_list.adjacent, Adjacency_list.is_vertex in *.
    rewrite find_set_weight_other by congruence.
    now destruct (StdMap.find v adj).
Qed.

Lemma directed_add_edge_one_way_witness :
  let adj' := Adjacency_list_directed.add_edge [] 1 2 5 in
  Adjacency_list.is_edge adj' 2 1 = false /\
  Adjacency_list.adjacent adj' 2 = [].
Proof.
  destruct (@directed_add_edge_one_way Z _ [] 1 2 5) as (_ & _ & _ & H).
  destruct H as (E & _ & A); [lia|].
  destruct A as (A & _); [reflexivity|].
  split; [exact E | exact A].
Defined.

(** C2 as stated fails for a self-loop: the call inserts (v,u) itself, and a
    [v] that was absent ends up with one neighbour. *)
Lemma directed_add_edge_self_loop_counterexample :
  let adj := @Adjacency_list.default_graph Z in
  let adj' := Adjacency_list_directed.add_edge adj 1 1 5 in
  ~ (Adjacency_list.is_edge adj' 1 1 = true /\
     Adjacency_list.weight adj' 1 1 = 5 /\
     Adjacency_list.is_vertex adj' 1 = true /\
     Adjacency_list.is_edge adj' 1 1 = Adjacency_list.is_edge adj 1 1 /\
     (Adjacency_list.is_vertex adj 1 = false ->
      Adjacency_list.adjacent adj' 1 = [])).
Proof.
  cbv zeta. intros (_ & _ & _ & H & _). vm_compute in H. discriminate H.
Qed.

(** ** Vertex insertion *)

(** C8. A second [add_vertex(v)] changes nothing: [num_vertex()] and
    [degree(v)] are what they were after the first, and [add_vertex] of a
    vertex that is present leaves its neighbour set (and the whole graph)
    as it was. *)
Theorem add_vertex_idempotent
  {V : Type} {IV : Ident V} (adj : Adjacency_list.Adj V) (v : V) :
  let adj1 := Adjacency_list.add_vertex adj v in
  let adj2 := Adjacency_list.add_vertex adj1 v in
  Adjacency_list.num_vertex adj2 = Adjacency_list.num_vertex adj1 /\
  Adjacency_list.degree adj2 v = Adjacency_list.degree adj1 v /\
  (Adjacency_list.is_vertex adj v = true ->
   Adjacency_list.adjacent adj1 v = Adjacency_list.adjacent adj v /\
   adj1 = adj).
Proof.
  cbv zeta. unfold Adjacency_list.add_vertex, StdMap.subscript.
  assert (E : StdMap.try_emplace v [] (StdMap.try_emplace v [] adj) =
              StdMap.try_emplace v [] adj).
  { pose proof (find_try_emplace_same v [] adj) as F.
    match type of F with
    | _ = match ?o with _ => _ end => destruct o
    end; eapply try_emplace_present; exact F. }
  rewrite E. repeat split.
  - apply (adjacent_subscript adj v v).
  - unfold Adjacency_list.is_vertex in H.
    destruct (StdMap.find v adj) eqn:F; [|discriminate].
    eapply try_emplace_present; exact F.
Qed.

Lemma add_vertex_idempotent_witness :
  let adj := Adjacency_list.add_edge [] 1 2 5 in
  Adjacency_list.adjacent (Adjacency_list.add_vertex adj 1) 1 = [(2, 5)] /\
  Adjacency_list.add_vertex adj 1 = adj.
Proof.
  destruct (@add_vertex_idempotent Z _ (Adjacency_list.add_edge [] 1 2 5) 1)
    as (_ & _ & H).
  destruct H as (A & B); [reflexivity|].
  split; [rewrite A; reflexivity | exact B].
Defined.

(** ** Construction *)

Section Construction.
Context {V : Type} {IV : Ident V}.

Lemma fold_left_map_ext {A B C : Type} (f : C -> A -> C) (g : C -> B -> C)
      (h : A -> B) (l : list A) (c : C) :
  (forall c a, f c a = g c (h a)) ->
  fold_left f l c = fold_left g (List.map h l) c.
Proof.
  intros E. revert c. induction l as [|a l IH]; intros c; simpl.
  - reflexivity.
  - now rewrite E, IH.
Qed.
End Construction.

(** C6. Each constructor builds the graph that the empty graph becomes under
    one [add_edge] per record, in order, with the store's own [add_edge] and
    weight 1 for a record without a weight. *)
Theorem constructors_are_repeated_add_edge
  {V : Type} {IV : Ident V} {E : Type} {RE : Edge_record V E}
  (us : list (UEdge V)) (ws : list (WEdge V)) (rs : list E) :
  Adjacency_list.from_uedges us =
    add_edges Undirected (List.map triple_of_UEdge us) /\
  Adjacency_list.from_wedges ws =
    add_edges Undirected (List.map triple_of_WEdge ws) /\
  Adjacency_list.from_range rs =
    add_edges Undirected (List.map triple_of_record rs) /\
  Adjacency_list_directed.from_uedges us =
    add_edges Directed (List.map triple_of_UEdge us) /\
  Adjacency_list_directed.from_wedges ws =
    add_edges Directed (List.map triple_of_WEdge ws) /\
  Adjacency_list_directed.from_range rs =
    add_edges Directed (List.map triple_of_record rs).
Proof.
  unfold add_edges, run. rewrite !List.map_map.
  repeat split; apply fold_left_map_ext; reflexivity.
Qed.

(** ** Counting edges *)

Section Counting.
Context {V : Type} {IV : Ident V}.
Implicit Types (adj : Adjacency_list.Adj V) (u v : V) (w : Z).

Import Adjacency_list.

Lemma size_nonneg {T : Type} (m : StdMap.t V T) : 0 <= StdMap.size m.
Proof. unfold StdMap.size. lia. Qed.

Lemma entry_sum_nonneg adj : 0 <= entry_sum adj.
Proof.
  unfold entry_sum. induction adj as [|n adj IH]; simpl; [lia|].
  pose proof (size_nonneg (snd n)). lia.
Qed.

(** Without overflow the loop of [num_edge] computes the sum of the sizes. *)
Lemma count_entries_from adj (acc : Z) :
  0 <= acc -> acc + entry_sum adj < size_t_modulus ->
  fold_left (fun edges n => size_t_wrap (edges + StdMap.size (snd n))) adj acc
  = acc + entry_sum adj.
Proof.
  revert acc. unfold entry_sum.
  induction adj as [|n adj IH]; simpl; intros acc Hacc Hlt; [lia|].
  pose proof (size_nonneg (snd n)) as Hn.
  pose proof (entry_sum_nonneg adj) as Hs. unfold entry_sum in Hs.
  unfold size_t_wrap at 2. rewrite Z.mod_small by lia.
  rewrite IH by lia. lia.
Qed.

Lemma count_entries_exact adj :
  entry_sum adj < size_t_modulus -> count_entries adj = entry_sum adj.
Proof.
  intros H. unfold count_entries. now rewrite count_entries_from by lia.
Qed.

Lemma degree_sum_entry_sum adj :
  StdMap.ordered adj -> degree_sum adj = entry_sum adj.
Proof.
  intros Hord. unfold degree_sum, entry_sum, vertices, StdMap.keys.
  rewrite List.map_map. f_equal. apply List.map_ext_in.
  intros [a nbrs] Hin. simpl. unfold degree.
  now rewrite (find_In_ordered _ _ Hord Hin).
Qed.

Lemma entry_sum_try_emplace adj v :
  entry_sum (StdMap.try_emplace v [] adj) = entry_sum adj.
Proof.
  unfold entry_sum. induction adj as [|[a nbrs] adj IH]; simpl.
  - reflexivity.
  - destruct (id_lt v a); simpl; [reflexivity|].
    destruct (id_lt a v); simpl; [|reflexivity].
    now rewrite IH.
Qed.

Lemma entry_sum_update adj v f nbrs :
  StdMap.find v adj = Some nbrs ->
  entry_sum (StdMap.update v f adj) =
  entry_sum adj - StdMap.size nbrs + StdMap.size (f nbrs).
Proof.
  unfold entry_sum. induction adj as [|[a x] adj IH]; simpl; [discriminate|].
  destruct (id_lt v a); [discriminate|].
  destruct (id_lt a v); simpl.
  - intros H. rewrite IH by exact H. lia.
  - intros [= ->]. lia.
Qed.

(** [adj[u][v] = w] adds one entry when (u,v) was no edge, none otherwise. *)
Lemma entry_sum_set_weight adj u v w :
  entry_sum (set_weight adj u v w) =
  entry_sum adj + (if is_edge adj u v then 0 else 1).
Proof.
  unfold set_weight, StdMap.subscript.
  pose proof (find_try_emplace_same (T:=Edges V) u [] adj) as F.
  rewrite is_edge_adjacent. unfold adjacent.
  destruct (StdMap.find u adj) as [nbrs|] eqn:Fu; 
    erewrite entry_sum_update by exact F;
    rewrite entry_sum_try_emplace, size_subscript_assign.
  - destruct (StdMap.find v nbrs); lia.
  - simpl. unfold StdMap.size. simpl. lia.
Qed.

Lemma ordered_set_weight adj u v w :
  StdMap.ordered adj -> StdMap.ordered (set_weight adj u v w).
Proof.
  intros H. unfold set_weight, StdMap.subscript.
  now apply ordered_update, ordered_try_emplace.
Qed.

Lemma ordered_exec k adj (c : call) :
  StdMap.ordered adj -> StdMap.ordered (exec k adj c).
Proof.
  intros H. destruct c as [v|u v w]; simpl.
  - now apply ordered_try_emplace.
  - destruct k; simpl.
    + unfold add_edge. now do 2 apply ordered_set_weight.
    + unfold Adjacency_list_directed.add_edge, StdMap.subscript.
      now apply ordered_try_emplace, ordered_set_weight.
Qed.

Lemma ordered_run k (cs : list call) adj :
  StdMap.ordered adj -> StdMap.ordered (run k cs adj).
Proof.
  unfold run. revert adj.
  induction cs as [|c cs IH]; simpl; intros adj H; [exact H|].
  now apply IH, ordered_exec.
Qed.

Lemma ordered_default_graph : StdMap.ordered (@default_graph V).
Proof. constructor. Qed.

Lemma shiftr_one (z : Z) : Z.shiftr z 1 = z / 2.
Proof. now rewrite Z.shiftr_div_pow2 by lia. Qed.

(** A graph without edges has only empty neighbour sets. *)
Lemma entry_sum_no_edges adj :
  StdMap.ordered adj ->
  (forall a b, is_edge adj a b = false) ->
  entry_sum adj = 0.
Proof.
  intros Hord Hno.
  assert (Hall : forall n, In n adj -> snd n = []).
  { intros [a nbrs] Hin. simpl.
    destruct nbrs as [|[b x] nbrs]; [reflexivity|].
    specialize (Hno a b). unfold is_edge in Hno.
    rewrite (find_In_ordered _ _ Hord Hin), find_head in Hno.
    discriminate Hno. }
  unfold entry_sum. clear Hord Hno.
  induction adj as [|n adj IH]; simpl; [reflexivity|].
  rewrite (Hall n) by now left. rewrite IH; [reflexivity|].
  intros m Hm. apply Hall. now right.
Qed.
End Counting.

(** C4. On the directed store [num_edge()] is the sum of the sizes of all
    neighbour sets, not halved, which is the sum of the out-degrees of the
    vertices; the sum is one that a [size_t] holds. *)
Theorem directed_num_edge_is_degree_sum
  {V : Type} {IV : Ident V} (adj : Adjacency_list.Adj V) :
  StdMap.ordered adj ->
  degree_sum adj < size_t_modulus ->
  Adjacency_list_directed.num_edge adj = entry_sum adj /\
  Adjacency_list_directed.num_edge adj = degree_sum adj.
Proof.
  intros Hord Hlt. rewrite (degree_sum_entry_sum Hord) in *.
  unfold Adjacency_list_directed.num_edge.
  now rewrite count_entries_exact.
Qed.

Lemma directed_num_edge_is_degree_sum_witness :
  Adjacency_list_directed.num_edge
    (Adjacency_list_directed.add_edge
       (Adjacency_list_directed.add_edge [] 1 2 1) 2 3 1) = 2.
Proof.
  destruct (@directed_num_edge_is_degree_sum Z _
              (Adjacency_list_directed.add_edge
                 (Adjacency_list_directed.add_edge [] 1 2 1) 2 3 1))
    as (_ & H).
  - vm_compute. repeat constructor.
  - reflexivity.
  - rewrite H. reflexivity.
Defined.

Section Symmetry.
Context {V : Type} {IV : Ident V}.
Implicit Types (adj : Adjacency_list.Adj V) (u v a b : V) (w : Z).

Import Adjacency_list.

Lemma pair_eq_dec (p q : V * V) : {p = q} + {p <> q}.
Proof. decide equality; apply id_eq_dec. Defined.

Lemma is_edge_add_edge adj u v w a b :
  is_edge (add_edge adj u v w) a b =
  if pair_eq_dec (a, b) (v, u) then true
  else if pair_eq_dec (a, b) (u, v) then true
       else is_edge adj a b.
Proof.
  unfold add_edge.
  destruct (pair_eq_dec (a, b) (v, u)) as [[= -> ->]|N1].
  - apply is_edge_set_weight_same.
  - rewrite (is_edge_set_weight_other _ w N1).
    destruct (pair_eq_dec (a, b) (u, v)) as [[= -> ->]|N2].
    + apply is_edge_set_weight_same.
    + apply (is_edge_set_weight_other _ w N2).
Qed.

Lemma symmetric_add_edge adj u v w :
  symmetric adj -> symmetric (add_edge adj u v w).
Proof.
  intros S a b. rewrite !is_edge_add_edge, (S a b).
  repeat match goal with
         | |- context [pair_eq_dec ?p ?q] => destruct (pair_eq_dec p q)
         end;
    try reflexivity; exfalso; congruence.
Qed.

Lemma symmetric_add_vertex adj v : symmetric adj -> symmetric (add_vertex adj v).
Proof.
  intros S a b. unfold add_vertex.
  rewrite !is_edge_adjacent, !adjacent_subscript, <- !is_edge_adjacent.
  apply S.
Qed.

Lemma symmetric_run (cs : list call) adj :
  symmetric adj -> symmetric (run Undirected cs adj).
Proof.
  unfold run. revert adj.
  induction cs as [|[v|u v w] cs IH]; simpl; intros adj S; [exact S| |].
  - now apply IH, symmetric_add_vertex.
  - now apply IH, symmetric_add_edge.
Qed.

(** An edge between two different vertices adds two entries or none. *)
Lemma entry_sum_add_edge adj u v w :
  symmetric adj -> u <> v ->
  entry_sum (add_edge adj u v w) =
  entry_sum adj + 2 * (if is_edge adj u v then 0 else 1).
Proof.
  intros S N. unfold add_edge. rewrite !entry_sum_set_weight.
  assert (P : (v, u) <> (u, v)) by (intros [= E _]; now apply N).
  rewrite (is_edge_set_weight_other _ w P), <- (S u v).
  destruct (is_edge adj u v); lia.
Qed.

Lemma even_entry_sum_run (cs : list call) adj :
  symmetric adj -> no_self_loop cs ->
  Z.even (entry_sum adj) = true ->
  Z.even (entry_sum (run Undirected cs adj)) = true.
Proof.
  unfold run, no_self_loop. revert adj.
  induction cs as [|[v|u v w] cs IH]; simpl; intros adj S L E; [exact E| |];
    inversion L as [|? ? Hc Hcs]; subst.
  - apply IH; [now apply symmetric_add_vertex|exact Hcs|].
    unfold add_vertex, StdMap.subscript. now rewrite entry_sum_try_emplace.
  - apply IH; [now apply symmetric_add_edge|exact Hcs|].
    rewrite entry_sum_add_edge by assumption.
    rewrite Z.even_add_mul_2. exact E.
Qed.

Lemma symmetric_default_graph : symmetric (@default_graph V).
Proof. intros a b. reflexivity. Qed.
End Symmetry.

(** C3, as the code has it. For an undirected graph obtained from the empty
    graph by calls of [add_vertex] and [add_edge], [num_edge()] is the sum
    of the degrees of the vertices halved by the shift of [size_t]
    arithmetic, so rounded down; it is exactly half the sum when no call
    inserts a self-loop.  The sum is one that a [size_t] holds. *)
Theorem undirected_num_edge_half_degree_sum
  {V : Type} {IV : Ident V} (cs : list (@call V)) :
  let adj := run Undirected cs Adjacency_list.default_graph in
  degree_sum adj < size_t_modulus ->
  Adjacency_list.num_edge adj = degree_sum adj / 2 /\
  (no_self_loop cs -> 2 * Adjacency_list.num_edge adj = degree_sum adj).
Proof.
  cbv zeta. intros Hlt.
  pose proof (ordered_run Undirected cs ordered_default_graph) as Hord.
  rewrite (degree_sum_entry_sum Hord) in *.
  assert (E : Adjacency_list.num_edge
                (run Undirected cs Adjacency_list.default_graph) =
              entry_sum (run Undirected cs Adjacency_list.default_graph) / 2).
  { unfold Adjacency_list.num_edge.
    now rewrite count_entries_exact, shiftr_one. }
  split; [exact E|].
  intros L. rewrite E.
  pose proof (even_entry_sum_run symmetric_default_graph L eq_refl) as Hev.
  apply Z.even_spec in Hev. destruct Hev as [h Hh]. rewrite Hh.
  rewrite (Z.mul_comm 2 h), Z.div_mul by lia. lia.
Qed.

Lemma undirected_num_edge_half_degree_sum_witness :
  let adj := run Undirected [Add_edge 1 2 5; Add_vertex 7; Add_edge 2 3 1]
                 Adjacency_list.default_graph in
  Adjacency_list.num_edge adj = 2 /\ degree_sum adj = 4.
Proof.
  cbv zeta.
  destruct (@undirected_num_edge_half_degree_sum Z _
              [Add_edge 1 2 5; Add_vertex 7; Add_edge 2 3 1]) as (H & D).
  - reflexivity.
  - split; [rewrite H; reflexivity|].
    rewrite <- D; [reflexivity|].
    repeat constructor; simpl; lia.
Defined.

(** C3 as stated fails with a self-loop: one call [add_edge(1, 1, 5)] on the
    empty graph leaves degree sum 1, which is not twice any [num_edge()]. *)
Lemma undirected_num_edge_self_loop_counterexample :
  let adj := run Undirected [Add_edge 1 1 5]
                 (@Adjacency_list.default_graph Z) in
  Adjacency_list.num_edge adj = 0 /\
  degree_sum adj = 1 /\
  2 * Adjacency_list.num_edge adj <> degree_sum adj.
Proof.
  cbv zeta. split; [reflexivity|]. split; [reflexivity|].
  vm_compute. discriminate.
Qed.

(** C10. On the undirected store [add_edge(v, v, w)] keeps one entry for
    (v,v), with weight [w]: the degree of [v] grows by one when the loop is
    new and not at all otherwise.  A graph whose only edge is one self-loop
    has degree sum 1, and [num_edge()] is 0 for it. *)
Theorem undirected_self_loop_single_entry
  {V : Type} {IV : Ident V} (adj : Adjacency_list.Adj V) (v : V) (w : Z) :
  let adj' := Adjacency_list.add_edge adj v v w in
  Adjacency_list.degree adj' v =
    Adjacency_list.degree adj v +
    (if Adjacency_list.is_edge adj v v then 0 else 1) /\
  Adjacency_list.degree adj' v <= Adjacency_list.degree adj v + 1 /\
  Adjacency_list.weight adj' v v = w /\
  (StdMap.ordered adj ->
   (forall a b, Adjacency_list.is_edge adj a b = false) ->
   degree_sum adj' = 1 /\
   Z.odd (degree_sum adj') = true /\
   Adjacency_list.num_edge adj' = 0).
Proof.
  cbv zeta. unfold Adjacency_list.add_edge.
  assert (D : Adjacency_list.degree
                (Adjacency_list.set_weight
                   (Adjacency_list.set_weight adj v v w) v v w) v =
              Adjacency_list.degree adj v +
              (if Adjacency_list.is_edge adj v v then 0 else 1)).
  { rewrite !degree_adjacent, is_edge_adjacent.
    unfold Adjacency_list.adjacent at 1. rewrite find_set_weight_same.
    unfold Adjacency_list.adjacent at 1. rewrite find_set_weight_same.
    rewrite !size_subscript_assign, find_subscript_assign_same.
    destruct (StdMap.find v (Adjacency_list.adjacent adj v)); lia. }
  split; [exact D|].
  split; [rewrite D; destruct (Adjacency_list.is_edge adj v v); lia|].
  split; [apply weight_set_weight_same|].
  intros Hord Hno.
  assert (S : entry_sum
                (Adjacency_list.set_weight
                   (Adjacency_list.set_weight adj v v w) v v w) = 1).
  { rewrite !entry_sum_set_weight, is_edge_set_weight_same, Hno.
    rewrite (entry_sum_no_edges Hord Hno). reflexivity. }
  rewrite degree_sum_entry_sum by now do 2 apply ordered_set_weight.
  unfold Adjacency_list.num_edge.
  rewrite count_entries_exact by (rewrite S; reflexivity).
  rewrite S. repeat split.
Qed.

Lemma undirected_self_loop_single_entry_witness :
  let adj' :=
    Adjacency_list.add_edge
      (Adjacency_list.add_vertex (Adjacency_list.add_vertex [] 4) 9) 4 4 7 in
  degree_sum adj' = 1 /\ Adjacency_list.num_edge adj' = 0.
Proof.
  destruct (@undirected_self_loop_single_entry Z _
              (Adjacency_list.add_vertex (Adjacency_list.add_vertex [] 4) 9)
              4 7) as (_ & _ & _ & H).
  destruct H as (S & _ & N).
  - vm_compute. repeat constructor.
  - intros a b. unfold Adjacency_list.is_edge. simpl.
    destruct (a <? 4); [reflexivity|].
    destruct (4 <? a); [|reflexivity].
    destruct (a <? 9); [reflexivity|].
    destruct (9 <? a); reflexivity.
  - split; [exact S | exact N].
Defined.

(** ** Queries on what is absent *)

Section Absent.
Context {V : Type} {IV : Ident V}.
Implicit Types (adj : Adjacency_list.Adj V) (u v : V) (w : Z).

Import Adjacency_list.

Lemma is_vertex_exec k adj (c : call) u :
  ~ In u (named c) -> is_vertex (exec k adj c) u = is_vertex adj u.
Proof.
  destruct c as [v|a b w]; simpl; intros N.
  - unfold add_vertex. rewrite is_vertex_subscript.
    destruct (id_eq_dec u v) as [->|_]; [|reflexivity].
    exfalso. apply N. now left.
  - assert (Na : u <> a) by (intros ->; apply N; now left).
    assert (Nb : u <> b) by (intros ->; apply N; right; now left).
    destruct k; simpl.
    + unfold add_edge. rewrite !is_vertex_set_weight.
      destruct (id_eq_dec u b); [contradiction|].
      destruct (id_eq_dec u a); [contradiction|reflexivity].
    + unfold Adjacency_list_directed.add_edge.
      rewrite is_vertex_subscript, is_vertex_set_weight.
      destruct (id_eq_dec u b); [contradiction|].
      destruct (id_eq_dec u a); [contradiction|reflexivity].
Qed.

Lemma is_vertex_run k (cs : list call) adj u :
  never_inserted u cs -> is_vertex (run k cs adj) u = is_vertex adj u.
Proof.
  unfold run, never_inserted. revert adj.
  induction cs as [|c cs IH]; simpl; intros adj H; [reflexivity|].
  inversion H as [|? ? Hc Hcs]; subst.
  rewrite IH by exact Hcs. now apply is_vertex_exec.
Qed.

Lemma absent_vertex adj u v :
  is_vertex adj u = false ->
  degree adj u = 0 /\ is_edge adj u v = false /\ weight adj u v = 0.
Proof.
  unfold is_vertex, degree, is_edge, weight.
  destruct (StdMap.find u adj); [discriminate|]. now repeat split.
Qed.

Lemma absent_edge adj u v : is_edge adj u v = false -> weight adj u v = 0.
Proof.
  unfold is_edge, weight.
  destruct (StdMap.find u adj) as [nbrs|]; [|reflexivity].
  destruct (StdMap.find v nbrs); [discriminate|reflexivity].
Qed.
End Absent.

(** ** Iteration *)

Section Iteration.
Context {V : Type} {IV : Ident V}.
Implicit Types (adj pre suf : Adjacency_list.Adj V) (v : V).

Import Adjacency_list.

Lemma walk_step (star : Vertex_iterator -> option V)
      (step : Vertex_iterator -> Vertex_iterator)
      (fuel : nat) (it last : Vertex_iterator) (v : V) :
  iter_eq it last = false -> star it = Some v ->
  walk star step (S fuel) it last =
  option_map (cons v) (walk star step fuel (step it) last).
Proof. intros E D. simpl. now rewrite E, D. Qed.

Lemma walk_forward pre suf :
  walk (deref (pre ++ suf)) incr (S (length suf))
       (mkIter (length pre)) (end_ (pre ++ suf)) =
  Some (StdMap.keys suf).
Proof.
  revert pre. induction suf as [|[v nbrs] suf IH]; intros pre.
  - simpl. unfold iter_eq, end_. simpl.
    rewrite app_nil_r, Nat.eqb_refl. reflexivity.
  - cbn [length]. rewrite (@walk_step _ _ _ _ _ v).
    + specialize (IH (pre ++ [(v, nbrs)])).
      rewrite <- app_assoc in IH. cbn [app] in IH.
      rewrite length_app in IH. cbn [length] in IH.
      rewrite Nat.add_1_r in IH.
      change (incr {| cur := length pre |}) with {| cur := S (length pre) |}.
      rewrite IH. reflexivity.
    + unfold iter_eq, end_. cbn [cur]. rewrite length_app. cbn [length].
      apply Nat.eqb_neq. lia.
    + unfold deref. cbn [cur].
      rewrite nth_error_app2, Nat.sub_diag by lia. reflexivity.
Qed.

Lemma walk_reverse pre suf :
  walk (rderef (pre ++ suf)) rincr (S (length pre))
       (mkIter (length pre)) (rend (pre ++ suf)) =
  Some (rev (StdMap.keys pre)).
Proof.
  revert suf. induction pre as [|[v nbrs] pre IH] using rev_ind; intros suf.
  - reflexivity.
  - rewrite length_app. cbn [length]. rewrite Nat.add_1_r.
    rewrite <- app_assoc. cbn [app].
    rewrite (@walk_step _ _ _ _ _ v).
    + change (rincr {| cur := S (length pre) |}) with {| cur := length pre |}.
      specialize (IH ((v, nbrs) :: suf)). unfold rend in *. rewrite IH.
      unfold StdMap.keys. rewrite List.map_app, rev_app_distr. reflexivity.
    + reflexivity.
    + unfold rderef. cbn [cur].
      rewrite nth_error_app2, Nat.sub_diag by lia. reflexivity.
Qed.

Lemma forward_iteration_keys adj : forward_iteration adj = Some (vertices adj).
Proof. exact (walk_forward [] adj). Qed.

Lemma reverse_iteration_keys adj :
  reverse_iteration adj = Some (rev (vertices adj)).
Proof.
  pose proof (walk_reverse adj []) as H. now rewrite app_nil_r in H.
Qed.

Lemma StronglySorted_snoc {A : Type} (R : A -> A -> Prop) (l : list A) (a : A) :
  StronglySorted R l -> Forall (fun x => R x a) l ->
  StronglySorted R (l ++ [a]).
Proof.
  induction 1 as [|b l Hs IH Hb]; intros Hall; simpl.
  - repeat constructor.
  - inversion Hall; subst. constructor; [now apply IH|].
    apply Forall_app. split; [exact Hb|]. now repeat constructor.
Qed.

Lemma StronglySorted_rev {A : Type} (R : A -> A -> Prop) (l : list A) :
  StronglySorted R l -> StronglySorted (fun a b => R b a) (rev l).
Proof.
  induction 1 as [|b l Hs IH Hb]; simpl; [constructor|].
  apply StronglySorted_snoc; [exact IH|].
  rewrite Forall_forall in *. intros x Hx. apply Hb. now apply in_rev.
Qed.

Lemma is_vertex_iff_In adj v :
  StdMap.ordered adj -> (In v (vertices adj) <-> is_vertex adj v = true).
Proof.
  intros Hord. unfold vertices, is_vertex. rewrite (find_key_iff _ Hord).
  destruct (StdMap.find v adj) as [x|]; split; intros H; try discriminate.
  - reflexivity.
  - now exists x.
  - destruct H as [x H]. discriminate.
Qed.
End Iteration.

(** C7. Iterating from [begin()] to [end()] visits every vertex once, in
    strictly increasing order of the identifiers, and iterating from
    [rbegin()] to [rend()] visits them in strictly decreasing order; after
    inserting the vertices 3, 1, 2 the first yields 1, 2, 3 and the second
    3, 2, 1. *)
Theorem vertex_iteration_follows_order :
  (forall (V : Type) (IV : Ident V) (adj : Adjacency_list.Adj V),
      StdMap.ordered adj ->
      exists vs : list V,
        Adjacency_list.forward_iteration adj = Some vs /\
        Adjacency_list.reverse_iteration adj = Some (rev vs) /\
        StronglySorted (fun a b => id_lt a b = true) vs /\
        StronglySorted (fun a b => id_lt b a = true) (rev vs) /\
        (forall v, In v vs <-> Adjacency_list.is_vertex adj v = true)) /\
  (forall k : store_kind,
      let adj := run k [Add_vertex 3; Add_vertex 1; Add_vertex 2]
                     Adjacency_list.default_graph in
      Adjacency_list.forward_iteration adj = Some [1; 2; 3] /\
      Adjacency_list.reverse_iteration adj = Some [3; 2; 1]).
Proof.
  split.
  - intros V IV adj Hord. exists (vertices adj).
    split; [apply forward_iteration_keys|].
    split; [apply reverse_iteration_keys|].
    split; [exact Hord|].
    split; [now apply StronglySorted_rev|].
    intros v. now apply is_vertex_iff_In.
  - intros k. destruct k; split; reflexivity.
Qed.

Lemma vertex_iteration_follows_order_witness :
  exists vs : list Z,
    Adjacency_list.forward_iteration
      (Adjacency_list.add_edge (Adjacency_list.add_edge [] 5 2 1) 2 9 1)
    = Some vs /\
    StronglySorted (fun a b => (a <? b) = true) vs.
Proof.
  destruct (proj1 vertex_iteration_follows_order Z _
              (Adjacency_list.add_edge (Adjacency_list.add_edge [] 5 2 1) 2 9 1))
    as (vs & F & _ & S & _).
  - vm_compute. repeat constructor.
  - exists vs. split; [exact F | exact S].
Defined.

(** C9. [min_vertex()] of a graph with vertices is a vertex, and no vertex is
    smaller; of a graph without vertices it is the value-initialised
    identifier. *)
Theorem min_vertex_is_least
  {V : Type} {IV : Ident V} (adj : Adjacency_list.Adj V) :
  (StdMap.empty adj = true -> Adjacency_list.min_vertex adj = id_default) /\
  (StdMap.ordered adj -> StdMap.empty adj = false ->
   Adjacency_list.is_vertex adj (Adjacency_list.min_vertex adj) = true /\
   forall v, Adjacency_list.is_vertex adj v = true ->
             v = Adjacency_list.min_vertex adj \/
             id_lt (Adjacency_list.min_vertex adj) v = true).
Proof.
  unfold Adjacency_list.min_vertex. split.
  - now intros ->.
  - intros Hord Hne. rewrite Hne.
    destruct adj as [|[m nbrs] adj]; [discriminate|].
    split.
    + unfold Adjacency_list.is_vertex. now rewrite find_head.
    + intros v Hv. apply (is_vertex_iff_In _ Hord) in Hv.
      unfold vertices, StdMap.keys in Hv. simpl in Hv.
      destruct Hv as [->|Hv]; [now left|right].
      inversion Hord as [|? ? _ Hall]; subst.
      rewrite Forall_forall in Hall. now apply Hall.
Qed.

Lemma min_vertex_is_least_witness :
  Adjacency_list.min_vertex (@Adjacency_list.default_graph Z) = 0 /\
  let adj := Adjacency_list.add_edge (Adjacency_list.add_edge [] 5 2 1) 2 9 1 in
  Adjacency_list.min_vertex adj = 2 /\
  Adjacency_list.is_vertex adj (Adjacency_list.min_vertex adj) = true.
Proof.
  split.
  - exact (proj1 (@min_vertex_is_least Z _ Adjacency_list.default_graph)
                  eq_refl).
  - cbv zeta. split; [reflexivity|].
    apply (proj2 (@min_vertex_is_least Z _
             (Adjacency_list.add_edge (Adjacency_list.add_edge [] 5 2 1) 2 9 1))).
    + vm_compute. repeat constructor.
    + reflexivity.
Defined.

(** ** The scenarios of the specification *)

Example undirected_round_trip :
  let g := Adjacency_list.from_wedges [mkWEdge 1 2 5; mkWEdge 2 3 1] in
  Adjacency_list.num_vertex g = 3 /\
  Adjacency_list.num_edge g = 2 /\
  Adjacency_list.weight g 1 2 = 5 /\
  Adjacency_list.weight g 2 3 = 1 /\
  Adjacency_list.weight g 1 3 = 0 /\
  Adjacency_list.is_edge g 3 1 = false.
Proof. repeat split. Qed.

Example directed_round_trip :
  let g := Adjacency_list_directed.from_uedges [mkUEdge 1 2; mkUEdge 2 3] in
  Adjacency_list_directed.num_edge g = 2 /\
  Adjacency_list.degree g 1 = 1 /\
  Adjacency_list.degree g 3 = 0 /\
  Adjacency_list.is_vertex g 3 = true.
Proof. repeat split. Qed.

(** ** More about the ordered map *)

Section StdMapMore.
Context {K : Type} {IK : Ident K} {T : Type}.
Implicit Types (m : StdMap.t K T) (k : K) (x d : T).

Lemma update_fixed k f m x :
  StdMap.find k m = Some x -> f x = x -> StdMap.update k f m = m.
Proof.
  intros F E. induction m as [|[k' y] m IH]; simpl in *; [reflexivity|].
  destruct (id_lt k k'); [reflexivity|].
  destruct (id_lt k' k).
  - now rewrite IH.
  - injection F as ->. now rewrite E.
Qed.

Lemma subscript_assign_fixed k d x m :
  StdMap.find k m = Some x -> StdMap.subscript_assign k d x m = m.
Proof.
  intros F. unfold StdMap.subscript_assign, StdMap.subscript.
  rewrite (try_emplace_present _ _ _ F). now apply update_fixed with x.
Qed.

Lemma keys_try_emplace_present k d m x :
  StdMap.find k m = Some x ->
  StdMap.keys (StdMap.try_emplace k d m) = StdMap.keys m.
Proof. intros F. now rewrite (try_emplace_present _ _ _ F). Qed.

(** Below the first key nothing is found. *)
Lemma find_below k k0 m :
  Forall (fun y => id_lt k0 y = true) (StdMap.keys m) ->
  id_lt k0 k = false -> StdMap.find k m = None.
Proof.
  destruct m as [|[k' y] m]; simpl; [reflexivity|].
  intros Hall Hk. inversion Hall as [|? ? H1 _]; subst.
  destruct (id_lt k k') eqn:E1; [reflexivity|].
  destruct (id_lt k' k) eqn:E2.
  - rewrite (id_lt_trans _ _ _ H1 E2) in Hk. discriminate.
  - id_same. rewrite H1 in Hk. discriminate.
Qed.

(** An ordered map is determined by what [find] returns. *)
Lemma ordered_ext m1 m2 :
  StdMap.ordered m1 -> StdMap.ordered m2 ->
  (forall k, StdMap.find k m1 = StdMap.find k m2) -> m1 = m2.
Proof.
  unfold StdMap.ordered. revert m2.
  induction m1 as [|[k1 x1] m1 IH]; intros [|[k2 x2] m2] O1 O2 H.
  - reflexivity.
  - specialize (H k2). rewrite find_head in H. discriminate.
  - specialize (H k1). rewrite find_head in H. discriminate.
  - simpl in O1, O2.
    inversion O1 as [|? ? O1' A1]; inversion O2 as [|? ? O2' A2]; subst.
    pose proof (H k1) as H1. pose proof (H k2) as H2.
    rewrite find_head in H1, H2. simpl in H1, H2.
    destruct (id_lt k1 k2) eqn:E12; [discriminate|].
    destruct (id_lt k2 k1) eqn:E21; [discriminate|].
    id_same. injection H1 as ->. f_equal.
    apply IH; [exact O1'|exact O2'|].
    intros k. destruct (id_lt k2 k) eqn:E.
    + specialize (H k). simpl in H.
      now rewrite (id_lt_asym _ _ E), E in H.
    + pose proof (find_below k k2 m1) as F1.
      pose proof (find_below k k2 m2) as F2.
      now rewrite F1, F2.
Qed.

Lemma ordered_subscript_assign k d x m :
  StdMap.ordered m -> StdMap.ordered (StdMap.subscript_assign k d x m).
Proof.
  intros H. unfold StdMap.subscript_assign, StdMap.subscript.
  now apply ordered_update, ordered_try_emplace.
Qed.

(** [find] and the position of [find] agree. *)
Lemma find_pos_spec k m :
  match StdMap.find k m with
  | Some x => nth_error m (StdMap.find_pos k m) = Some (k, x)
  | None => StdMap.find_pos k m = length m
  end.
Proof.
  induction m as [|[k' y] m IH]; simpl; [reflexivity|].
  destruct (id_lt k k') eqn:E1; [reflexivity|].
  destruct (id_lt k' k) eqn:E2.
  - destruct (StdMap.find k m); simpl; [exact IH|now rewrite IH].
  - id_same. reflexivity.
Qed.

(** In an ordered map, writing at the position of a node is writing at its
    key. *)
Lemma write_at_update i k x0 x m :
  StdMap.ordered m -> nth_error m i = Some (k, x0) ->
  StdMap.write_at i x m = Some (StdMap.update k (fun _ => x) m) /\
  StdMap.find k m = Some x0.
Proof.
  unfold StdMap.ordered. revert i.
  induction m as [|[k' y] m IH]; intros [|i] O N; simpl in N; try discriminate.
  - injection N as -> ->. simpl. now rewrite id_lt_irrefl.
  - simpl in O. inversion O as [|? ? O' A]; subst.
    assert (L : id_lt k' k = true).
    { rewrite Forall_forall in A. apply A.
      change k with (fst (k, x0)). apply in_map. eapply nth_error_In, N. }
    destruct (IH i O' N) as [W F]. simpl.
    rewrite (id_lt_asym _ _ L), L, W. now split.
Qed.
End StdMapMore.

(** ** Entries *)

Section Entries.
Context {V : Type} {IV : Ident V}.
Implicit Types (adj : Adjacency_list.Adj V) (u v a b : V) (w : Z).

Import Adjacency_list.

Lemma lookup_adjacent adj a b : lookup adj a b = StdMap.find b (adjacent adj a).
Proof. unfold lookup, adjacent. now destruct (StdMap.find a adj). Qed.

Lemma is_edge_lookup adj a b :
  is_edge adj a b = match lookup adj a b with Some _ => true | None => false end.
Proof. unfold is_edge, lookup. now destruct (StdMap.find a adj). Qed.

Lemma weight_lookup adj a b :
  weight adj a b = match lookup adj a b with Some x => x | None => 0 end.
Proof. unfold weight, lookup. now destruct (StdMap.find a adj). Qed.

Lemma lookup_set_weight adj u v w a b :
  lookup (set_weight adj u v w) a b =
  if pair_eq_dec (a, b) (u, v) then Some w else lookup adj a b.
Proof.
  destruct (pair_eq_dec (a, b) (u, v)) as [E|N].
  - injection E as -> ->. unfold lookup.
    now rewrite find_set_weight_same, find_subscript_assign_same.
  - apply (find_pair_set_weight_other adj w N).
Qed.

Lemma lookup_subscript adj v a b :
  lookup (StdMap.subscript v [] adj) a b = lookup adj a b.
Proof. now rewrite !lookup_adjacent, adjacent_subscript. Qed.

Lemma lookup_add_edge adj u v w a b :
  lookup (add_edge adj u v w) a b =
  if pair_eq_dec (a, b) (v, u) then Some w
  else if pair_eq_dec (a, b) (u, v) then Some w
       else lookup adj a b.
Proof. unfold add_edge. now rewrite !lookup_set_weight. Qed.

Lemma lookup_add_edge_directed adj u v w a b :
  lookup (Adjacency_list_directed.add_edge adj u v w) a b =
  if pair_eq_dec (a, b) (u, v) then Some w else lookup adj a b.
Proof.
  unfold Adjacency_list_directed.add_edge.
  now rewrite lookup_subscript, lookup_set_weight.
Qed.

Lemma set_weight_fixed adj u v w :
  lookup adj u v = Some w -> set_weight adj u v w = adj.
Proof.
  unfold lookup, set_weight, StdMap.subscript. intros L.
  destruct (StdMap.find u adj) as [nbrs|] eqn:F; [|discriminate].
  rewrite (try_emplace_present _ _ _ F).
  apply update_fixed with nbrs; [exact F|].
  now apply subscript_assign_fixed.
Qed.

Lemma subscript_fixed adj v :
  is_vertex adj v = true -> StdMap.subscript v [] adj = adj.
Proof.
  unfold is_vertex, StdMap.subscript. intros H.
  destruct (StdMap.find v adj) eqn:F; [|discriminate].
  exact (try_emplace_present _ _ _ F).
Qed.

Lemma vertices_set_weight adj u v w :
  is_vertex adj u = true -> vertices (set_weight adj u v w) = vertices adj.
Proof.
  intros H. unfold vertices, set_weight.
  now rewrite keys_update, (subscript_fixed _ _ H).
Qed.

Lemma is_vertex_add_edge adj u v w a :
  is_vertex (add_edge adj u v w) a =
  if id_eq_dec a u then true
  else if id_eq_dec a v then true else is_vertex adj a.
Proof.
  unfold add_edge. rewrite !is_vertex_set_weight.
  destruct (id_eq_dec a v), (id_eq_dec a u); reflexivity.
Qed.

Lemma is_vertex_add_edge_directed adj u v w a :
  is_vertex (Adjacency_list_directed.add_edge adj u v w) a =
  if id_eq_dec a u then true
  else if id_eq_dec a v then true else is_vertex adj a.
Proof.
  unfold Adjacency_list_directed.add_edge.
  rewrite is_vertex_subscript, is_vertex_set_weight.
  destruct (id_eq_dec a v), (id_eq_dec a u); reflexivity.
Qed.

Lemma id_eq_dec_refl a : exists e, id_eq_dec a a = left e.
Proof. destruct (id_eq_dec a a) as [e|n]; [now exists e|contradiction]. Qed.

Lemma is_vertex_add_edge_source adj u v w :
  is_vertex (add_edge adj u v w) u = true.
Proof.
  rewrite is_vertex_add_edge. now destruct (id_eq_dec u u).
Qed.

Lemma is_vertex_add_edge_dest adj u v w :
  is_vertex (add_edge adj u v w) v = true.
Proof.
  rewrite is_vertex_add_edge.
  destruct (id_eq_dec v u); [reflexivity|]. now destruct (id_eq_dec v v).
Qed.

Lemma is_vertex_add_edge_directed_source adj u v w :
  is_vertex (Adjacency_list_directed.add_edge adj u v w) u = true.
Proof.
  rewrite is_vertex_add_edge_directed. now destruct (id_eq_dec u u).
Qed.

Lemma is_vertex_add_edge_directed_dest adj u v w :
  is_vertex (Adjacency_list_directed.add_edge adj u v w) v = true.
Proof.
  rewrite is_vertex_add_edge_directed.
  destruct (id_eq_dec v u); [reflexivity|]. now destruct (id_eq_dec v v).
Qed.
End Entries.

(** ** Re-inserting and overwriting *)

(** X1. In either store a second [add_edge(u, v, _)] overwrites the weight and
    changes nothing else: the vertices and the edges stay what they were, as
    do the weights of all other entries (all but (u,v) and, on the undirected
    store, (v,u)); with the weight it already has the graph is left as it
    is. *)
Theorem add_edge_overwrites
  {V : Type} {IV : Ident V} (k : store_kind) (adj : Adjacency_list.Adj V)
  (u v : V) (w1 w2 : Z) :
  let g1 := add_edge_of k adj u v w1 in
  let g2 := add_edge_of k g1 u v w2 in
  Adjacency_list.weight g2 u v = w2 /\
  vertices g2 = vertices g1 /\
  (forall a b, Adjacency_list.is_edge g2 a b = Adjacency_list.is_edge g1 a b) /\
  (forall a b, (a, b) <> (u, v) -> (k = Undirected -> (a, b) <> (v, u)) ->
               Adjacency_list.weight g2 a b = Adjacency_list.weight g1 a b) /\
  add_edge_of k g1 u v w1 = g1.
Proof.
  cbv zeta. destruct k; simpl.
  - split; [apply undirected_add_edge_symmetric|].
    split.
    { unfold Adjacency_list.add_edge at 1.
      rewrite !vertices_set_weight;
        [reflexivity|apply is_vertex_add_edge_source|].
      rewrite is_vertex_set_weight. destruct (id_eq_dec v u); [reflexivity|].
      apply is_vertex_add_edge_dest. }
    split.
    { intros a b. rewrite !is_edge_lookup, !lookup_add_edge.
      destruct (pair_eq_dec (a, b) (v, u)); [reflexivity|].
      now destruct (pair_eq_dec (a, b) (u, v)). }
    split.
    { intros a b N1 N2. rewrite !weight_lookup.
      rewrite (lookup_add_edge (Adjacency_list.add_edge adj u v w1)).
      destruct (pair_eq_dec (a, b) (v, u)); [now elim N2|].
      now destruct (pair_eq_dec (a, b) (u, v)). }
    unfold Adjacency_list.add_edge at 1.
    assert (L1 : lookup (Adjacency_list.add_edge adj u v w1) u v = Some w1).
    { rewrite lookup_add_edge.
      destruct (pair_eq_dec (u, v) (v, u)); [reflexivity|].
      now destruct (pair_eq_dec (u, v) (u, v)). }
    assert (L2 : lookup (Adjacency_list.add_edge adj u v w1) v u = Some w1).
    { rewrite lookup_add_edge. now destruct (pair_eq_dec (v, u) (v, u)). }
    rewrite (set_weight_fixed _ _ _ L1). exact (set_weight_fixed _ _ _ L2).
  - assert (L1 : lookup (Adjacency_list_directed.add_edge adj u v w1) u v
                 = Some w1).
    { rewrite lookup_add_edge_directed.
      now destruct (pair_eq_dec (u, v) (u, v)). }
    split; [apply directed_add_edge_one_way|].
    split.
    { unfold Adjacency_list_directed.add_edge at 1.
      rewrite subscript_fixed.
      - apply vertices_set_weight, is_vertex_add_edge_directed_source.
      - rewrite is_vertex_set_weight. destruct (id_eq_dec v u); [reflexivity|].
        apply is_vertex_add_edge_directed_dest. }
    split.
    { intros a b. rewrite !is_edge_lookup, !lookup_add_edge_directed.
      now destruct (pair_eq_dec (a, b) (u, v)). }
    split.
    { intros a b N1 _. rewrite !weight_lookup.
      rewrite (lookup_add_edge_directed
                 (Adjacency_list_directed.add_edge adj u v w1)).
      now destruct (pair_eq_dec (a, b) (u, v)). }
    unfold Adjacency_list_directed.add_edge at 1.
    rewrite (set_weight_fixed _ _ _ L1).
    apply subscript_fixed, is_vertex_add_edge_directed_dest.
Qed.

Lemma add_edge_overwrites_witness :
  let g1 := Adjacency_list.add_edge (Adjacency_list.add_edge [] 2 3 4) 1 2 5 in
  let g2 := Adjacency_list.add_edge g1 1 2 9 in
  Adjacency_list.weight g2 3 2 = Adjacency_list.weight g1 3 2.
Proof.
  cbv zeta.
  destruct (@add_edge_overwrites Z _ Undirected
              (Adjacency_list.add_edge [] 2 3 4) 1 2 5 9)
    as (_ & _ & _ & F & _).
  apply (F 3 2); [|intros _]; intros [= E]; lia.
Defined.

(** ** What an insertion leaves alone *)

(** X2. In either store [add_edge(u, v, w)] touches its own entries only: every
    other pair keeps its edge status and weight, every other identifier its
    vertex status, every vertex but [u] (and [v] on the undirected store) its
    degree, and no vertex is lost. *)
Theorem add_edge_frame
  {V : Type} {IV : Ident V} (k : store_kind) (adj : Adjacency_list.Adj V)
  (u v : V) (w : Z) :
  let g := add_edge_of k adj u v w in
  (forall a b, (a, b) <> (u, v) -> (k = Undirected -> (a, b) <> (v, u)) ->
               Adjacency_list.is_edge g a b = Adjacency_list.is_edge adj a b /\
               Adjacency_list.weight g a b = Adjacency_list.weight adj a b) /\
  (forall a, a <> u -> a <> v ->
             Adjacency_list.is_vertex g a = Adjacency_list.is_vertex adj a) /\
  (forall a, a <> u -> (k = Undirected -> a <> v) ->
             Adjacency_list.degree g a = Adjacency_list.degree adj a) /\
  (forall a, Adjacency_list.is_vertex adj a = true ->
             Adjacency_list.is_vertex g a = true).
Proof.
  cbv zeta. destruct k; simpl.
  - split; [|split; [|split]].
    + intros a b N1 N2. specialize (N2 eq_refl).
      rewrite !is_edge_lookup, !weight_lookup, lookup_add_edge.
      destruct (pair_eq_dec (a, b) (v, u)); [contradiction|].
      now destruct (pair_eq_dec (a, b) (u, v)).
    + intros a Nu Nv. rewrite is_vertex_add_edge.
      destruct (id_eq_dec a u); [contradiction|].
      now destruct (id_eq_dec a v).
    + intros a Nu Nv. specialize (Nv eq_refl).
      unfold Adjacency_list.add_edge, Adjacency_list.degree.
      now rewrite !find_set_weight_other.
    + intros a H. rewrite is_vertex_add_edge, H.
      now destruct (id_eq_dec a u), (id_eq_dec a v).
  - split; [|split; [|split]].
    + intros a b N1 _.
      rewrite !is_edge_lookup, !weight_lookup, lookup_add_edge_directed.
      now destruct (pair_eq_dec (a, b) (u, v)).
    + intros a Nu Nv. rewrite is_vertex_add_edge_directed.
      destruct (id_eq_dec a u); [contradiction|].
      now destruct (id_eq_dec a v).
    + intros a Nu _.
      unfold Adjacency_list_directed.add_edge.
      rewrite !degree_adjacent, adjacent_subscript.
      unfold Adjacency_list.adjacent. now rewrite find_set_weight_other.
    + intros a H. rewrite is_vertex_add_edge_directed, H.
      now destruct (id_eq_dec a u), (id_eq_dec a v).
Qed.

Lemma add_edge_frame_witness :
  let adj := Adjacency_list_directed.add_edge [] 2 1 7 in
  let g := Adjacency_list_directed.add_edge adj 1 2 5 in
  Adjacency_list.weight g 2 1 = Adjacency_list.weight adj 2 1 /\
  Adjacency_list.degree g 2 = Adjacency_list.degree adj 2 /\
  Adjacency_list.is_vertex g 3 = Adjacency_list.is_vertex adj 3.
Proof.
  cbv zeta.
  destruct (@add_edge_frame Z _ Directed
              (Adjacency_list_directed.add_edge [] 2 1 7) 1 2 5)
    as (A & B & C & _).
  split; [|split].
  - apply (A 2 1); [intros [= E]; lia | discriminate].
  - apply (C 2); [lia | discriminate].
  - apply (B 3); lia.
Defined.

(** ** Invariants of the stores *)

Section Invariants.
Context {V : Type} {IV : Ident V}.
Implicit Types (adj : Adjacency_list.Adj V) (u v a b : V) (w : Z).

Import Adjacency_list.

Lemma Forall_try_emplace {T : Type} (P : V * T -> Prop) (k : V) (d : T)
      (m : StdMap.t V T) :
  P (k, d) -> Forall P m -> Forall P (StdMap.try_emplace k d m).
Proof.
  intros Hd. induction 1 as [|[k' x] m Hx Hm IH]; simpl.
  - now repeat constructor.
  - destruct (id_lt k k'); [now repeat constructor|].
    destruct (id_lt k' k); now constructor.
Qed.

Lemma Forall_update {T : Type} (Q : T -> Prop) (k : V) (f : T -> T)
      (m : StdMap.t V T) :
  (forall x, Q x -> Q (f x)) ->
  Forall (fun n => Q (snd n)) m ->
  Forall (fun n => Q (snd n)) (StdMap.update k f m).
Proof.
  intros Hf. induction 1 as [|[k' x] m Hx Hm IH]; simpl.
  - constructor.
  - destruct (id_lt k k'); [now constructor|].
    destruct (id_lt k' k); constructor; simpl in *; auto.
Qed.

Lemma well_formed_subscript adj v :
  well_formed adj -> well_formed (StdMap.subscript v [] adj).
Proof.
  intros [O I]. split.
  - now apply ordered_try_emplace.
  - apply Forall_try_emplace; [constructor|exact I].
Qed.

Lemma well_formed_set_weight adj u v w :
  well_formed adj -> well_formed (set_weight adj u v w).
Proof.
  intros H. apply (well_formed_subscript u) in H. destruct H as [O I].
  split.
  - now apply ordered_update.
  - apply (Forall_update (fun nbrs => StdMap.ordered nbrs)); [|exact I].
    intros x. apply ordered_subscript_assign.
Qed.

Lemma well_formed_exec k adj (c : call) :
  well_formed adj -> well_formed (exec k adj c).
Proof.
  intros H. destruct c as [v|u v w]; simpl.
  - now apply well_formed_subscript.
  - destruct k; simpl.
    + unfold add_edge. now do 2 apply well_formed_set_weight.
    + unfold Adjacency_list_directed.add_edge.
      now apply well_formed_subscript, well_formed_set_weight.
Qed.

Lemma well_formed_default_graph : well_formed (@default_graph V).
Proof. split; constructor. Qed.

(** A well-formed store is determined by its vertices and its entries. *)
Lemma graph_ext adj1 adj2 :
  well_formed adj1 -> well_formed adj2 ->
  (forall a, is_vertex adj1 a = is_vertex adj2 a) ->
  (forall a b, lookup adj1 a b = lookup adj2 a b) ->
  adj1 = adj2.
Proof.
  intros [O1 I1] [O2 I2] HV HL. apply ordered_ext; [exact O1|exact O2|].
  intros a. specialize (HV a). unfold is_vertex in HV.
  pose proof (fun b => HL a b) as HLa. unfold lookup in HLa.
  destruct (StdMap.find a adj1) as [n1|] eqn:F1,
           (StdMap.find a adj2) as [n2|] eqn:F2; try discriminate;
    [|reflexivity].
  f_equal. apply ordered_ext; [| |exact HLa].
  - rewrite Forall_forall in I1. apply (I1 (a, n1)). now apply find_Some_In.
  - rewrite Forall_forall in I2. apply (I2 (a, n2)). now apply find_Some_In.
Qed.

Lemma lookup_exec_undirected_symmetric adj (c : call) :
  (forall a b, lookup adj a b = lookup adj b a) ->
  forall a b, lookup (exec Undirected adj c) a b =
              lookup (exec Undirected adj c) b a.
Proof.
  intros S a b. destruct c as [v|u v w]; simpl.
  - unfold add_vertex. now rewrite !lookup_subscript.
  - rewrite !lookup_add_edge, (S a b).
    repeat match goal with
           | |- context [pair_eq_dec ?p ?q] => destruct (pair_eq_dec p q)
           end;
      try reflexivity; exfalso; congruence.
Qed.

Lemma is_edge_exec k adj (c : call) a b :
  is_edge (exec k adj c) a b = true ->
  is_edge adj a b = true \/
  exists u v w, c = Add_edge u v w /\
                ((a, b) = (u, v) \/ (k = Undirected /\ (a, b) = (v, u))).
Proof.
  destruct c as [v|u v w]; simpl.
  - unfold add_vertex. rewrite !is_edge_lookup, lookup_subscript. now left.
  - destruct k; simpl.
    + rewrite !is_edge_lookup, lookup_add_edge.
      destruct (pair_eq_dec (a, b) (v, u)) as [E|_];
        [right; exists u, v, w; auto|].
      destruct (pair_eq_dec (a, b) (u, v)) as [E|_];
        [right; exists u, v, w; auto|]. now left.
    + rewrite !is_edge_lookup, lookup_add_edge_directed.
      destruct (pair_eq_dec (a, b) (u, v)) as [E|_];
        [right; exists u, v, w; auto|]. now left.
Qed.

Lemma is_vertex_exec_mono k adj (c : call) a :
  is_vertex adj a = true -> is_vertex (exec k adj c) a = true.
Proof.
  intros H. destruct c as [v|u v w]; simpl.
  - unfold add_vertex. rewrite is_vertex_subscript, H.
    now destruct (id_eq_dec a v).
  - destruct k; simpl.
    + rewrite is_vertex_add_edge, H.
      now destruct (id_eq_dec a u), (id_eq_dec a v).
    + rewrite is_vertex_add_edge_directed, H.
      now destruct (id_eq_dec a u), (id_eq_dec a v).
Qed.

Lemma endpoints_exec k adj (c : call) :
  (forall a b, is_edge adj a b = true -> is_vertex adj b = true) ->
  forall a b, is_edge (exec k adj c) a b = true ->
              is_vertex (exec k adj c) b = true.
Proof.
  intros C a b H. apply is_edge_exec in H.
  destruct H as [H|(u & v & w & -> & H)].
  - apply is_vertex_exec_mono. now apply (C a b).
  - simpl. destruct H as [[= -> ->]|[-> [= -> ->]]]; simpl.
    + destruct k; simpl;
        [apply is_vertex_add_edge_dest|apply is_vertex_add_edge_directed_dest].
    + apply is_vertex_add_edge_source.
Qed.
End Invariants.

(** X3. Every sequence of [add_vertex] and [add_edge] calls, on either store,
    keeps the keys of the vertex map and of every neighbour map strictly
    increasing. *)
Theorem calls_keep_maps_ordered
  {V : Type} {IV : Ident V} (k : store_kind) (cs : list (@call V))
  (adj : Adjacency_list.Adj V) :
  well_formed adj -> well_formed (run k cs adj).
Proof.
  unfold run. revert adj.
  induction cs as [|c cs IH]; simpl; intros adj H; [exact H|].
  now apply IH, well_formed_exec.
Qed.

Lemma calls_keep_maps_ordered_witness :
  well_formed (run Directed [Add_edge 3 1 2; Add_vertex 2; Add_edge 1 3 4]
                   (@Adjacency_list.default_graph Z)).
Proof.
  apply (@calls_keep_maps_ordered Z _ Directed
           [Add_edge 3 1 2; Add_vertex 2; Add_edge 1 3 4]
           Adjacency_list.default_graph).
  split; constructor.
Defined.

(** X4. On the undirected store built by [add_vertex] and [add_edge] calls, the
    two directions of every pair agree: both are edges or neither is, and
    the weights are equal. *)
Theorem undirected_store_is_symmetric
  {V : Type} {IV : Ident V} (cs : list (@call V)) (a b : V) :
  let adj := run Undirected cs Adjacency_list.default_graph in
  Adjacency_list.is_edge adj a b = Adjacency_list.is_edge adj b a /\
  Adjacency_list.weight adj a b = Adjacency_list.weight adj b a.
Proof.
  cbv zeta.
  assert (S : forall x y,
             lookup (run Undirected cs Adjacency_list.default_graph) x y =
             lookup (run Undirected cs Adjacency_list.default_graph) y x).
  { unfold run.
    assert (S0 : forall x y : V,
               lookup Adjacency_list.default_graph x y =
               lookup Adjacency_list.default_graph y x) by reflexivity.
    revert S0. generalize (@Adjacency_list.default_graph V).
    induction cs as [|c cs IH]; simpl; intros adj S0; [exact S0|].
    apply IH. now apply lookup_exec_undirected_symmetric. }
  now rewrite !is_edge_lookup, !weight_lookup, (S a b).
Qed.

(** X5. In a graph built by calls on either store, both ends of every edge are
    vertices. *)
Theorem edge_endpoints_are_vertices
  {V : Type} {IV : Ident V} (k : store_kind) (cs : list (@call V)) (a b : V) :
  let adj := run k cs Adjacency_list.default_graph in
  Adjacency_list.is_edge adj a b = true ->
  Adjacency_list.is_vertex adj a = true /\
  Adjacency_list.is_vertex adj b = true.
Proof.
  cbv zeta. intros H. split.
  - unfold Adjacency_list.is_edge, Adjacency_list.is_vertex in *.
    now destruct (StdMap.find a (run k cs Adjacency_list.default_graph)).
  - revert a b H. unfold run.
    assert (C0 : forall x y : V,
               Adjacency_list.is_edge Adjacency_list.default_graph x y = true ->
               Adjacency_list.is_vertex Adjacency_list.default_graph y = true)
      by discriminate.
    revert C0. generalize (@Adjacency_list.default_graph V).
    induction cs as [|c cs IH]; simpl; intros adj C0; [exact C0|].
    apply IH. now apply endpoints_exec.
Qed.

Lemma edge_endpoints_are_vertices_witness :
  let adj := run Directed [Add_edge 1 2 5] Adjacency_list.default_graph in
  Adjacency_list.is_vertex adj 1 = true /\ Adjacency_list.is_vertex adj 2 = true.
Proof.
  apply (@edge_endpoints_are_vertices Z _ Directed [Add_edge 1 2 5] 1 2).
  reflexivity.
Defined.

(** ** The order of insertions *)

Section Order.
Context {V : Type} {IV : Ident V}.
Implicit Types (adj : Adjacency_list.Adj V) (u v a b : V) (w : Z).

Import Adjacency_list.

Lemma is_vertex_add_edge_of k adj u v w a :
  is_vertex (add_edge_of k adj u v w) a =
  if id_eq_dec a u then true
  else if id_eq_dec a v then true else is_vertex adj a.
Proof.
  destruct k; [apply is_vertex_add_edge|apply is_vertex_add_edge_directed].
Qed.

Lemma lookup_add_edge_of k adj u v w a b :
  lookup (add_edge_of k adj u v w) a b =
  if pair_eq_dec (a, b) (u, v) then Some w
  else match k with
       | Undirected =>
           if pair_eq_dec (a, b) (v, u) then Some w else lookup adj a b
       | Directed => lookup adj a b
       end.
Proof.
  destruct k; cbn [add_edge_of].
  - rewrite lookup_add_edge.
    now destruct (pair_eq_dec (a, b) (v, u)), (pair_eq_dec (a, b) (u, v)).
  - apply lookup_add_edge_directed.
Qed.

Lemma well_formed_add_edge_of k adj u v w :
  well_formed adj -> well_formed (add_edge_of k adj u v w).
Proof. exact (well_formed_exec k (Add_edge u v w)). Qed.

Lemma well_formed_add_vertex adj v :
  well_formed adj -> well_formed (add_vertex adj v).
Proof. apply well_formed_subscript. Qed.
End Order.

(** X6. A store whose maps are ordered does not remember the order of the
    insertions: two [add_vertex] calls commute, [add_vertex] commutes with
    [add_edge], and so do two [add_edge] calls for different edges. *)
Theorem insertions_commute
  {V : Type} {IV : Ident V} (k : store_kind) (adj : Adjacency_list.Adj V) :
  well_formed adj ->
  (forall a b,
      Adjacency_list.add_vertex (Adjacency_list.add_vertex adj a) b =
      Adjacency_list.add_vertex (Adjacency_list.add_vertex adj b) a) /\
  (forall a u v w,
      Adjacency_list.add_vertex (add_edge_of k adj u v w) a =
      add_edge_of k (Adjacency_list.add_vertex adj a) u v w) /\
  (forall u v w a b x,
      (a, b) <> (u, v) -> (k = Undirected -> (a, b) <> (v, u)) ->
      add_edge_of k (add_edge_of k adj u v w) a b x =
      add_edge_of k (add_edge_of k adj a b x) u v w).
Proof.
  intros WF. split; [|split].
  - intros a b.
    apply graph_ext;
      try (now do 2 apply well_formed_add_vertex).
    + intros c. unfold Adjacency_list.add_vertex.
      rewrite !is_vertex_subscript.
      now destruct (id_eq_dec c a), (id_eq_dec c b).
    + intros c d. unfold Adjacency_list.add_vertex.
      now rewrite !lookup_subscript.
  - intros a u v w.
    apply graph_ext;
      try (now (apply well_formed_add_vertex, well_formed_add_edge_of)
               || (apply well_formed_add_edge_of, well_formed_add_vertex)).
    + intros c. unfold Adjacency_list.add_vertex.
      rewrite is_vertex_subscript, !is_vertex_add_edge_of, is_vertex_subscript.
      now destruct (id_eq_dec c a), (id_eq_dec c u), (id_eq_dec c v).
    + intros c d. unfold Adjacency_list.add_vertex.
      now rewrite lookup_subscript, !lookup_add_edge_of, lookup_subscript.
  - intros u v w a b x N1 N2.
    apply graph_ext; try (now do 2 apply well_formed_add_edge_of).
    + intros c. rewrite !is_vertex_add_edge_of.
      now destruct (id_eq_dec c a), (id_eq_dec c b),
                   (id_eq_dec c u), (id_eq_dec c v).
    + intros c d. rewrite !lookup_add_edge_of.
      destruct k.
      * specialize (N2 eq_refl).
        repeat match goal with
               | |- context [pair_eq_dec ?p ?q] => destruct (pair_eq_dec p q)
               end;
          try reflexivity; exfalso; congruence.
      * repeat match goal with
               | |- context [pair_eq_dec ?p ?q] => destruct (pair_eq_dec p q)
               end;
          try reflexivity; exfalso; congruence.
Qed.

Lemma insertions_commute_witness :
  Adjacency_list.add_edge (Adjacency_list.add_edge [] 5 2 1) 2 9 3 =
  Adjacency_list.add_edge (Adjacency_list.add_edge [] 2 9 3) 5 2 1.
Proof.
  destruct (@insertions_commute Z _ Undirected Adjacency_list.default_graph)
    as (_ & _ & H).
  - split; constructor.
  - apply (H 5 2 1 2 9 3); [|intros _]; intros [= E]; lia.
Defined.

(** ** Counts after an insertion *)

Section Deltas.
Context {V : Type} {IV : Ident V}.
Implicit Types (adj : Adjacency_list.Adj V) (u v a b : V) (w : Z).

Import Adjacency_list.

Lemma num_vertex_subscript adj v :
  num_vertex (StdMap.subscript v [] adj) =
  num_vertex adj + (if is_vertex adj v then 0 else 1).
Proof.
  unfold num_vertex, StdMap.subscript, is_vertex.
  rewrite size_try_emplace. now destruct (StdMap.find v adj).
Qed.

Lemma num_vertex_set_weight adj u v w :
  num_vertex (set_weight adj u v w) =
  num_vertex adj + (if is_vertex adj u then 0 else 1).
Proof.
  unfold set_weight, num_vertex, StdMap.size at 1.
  rewrite length_update. apply num_vertex_subscript.
Qed.

Lemma degree_set_weight adj u v w a :
  degree (set_weight adj u v w) a =
  if id_eq_dec a u
  then degree adj u + (if is_edge adj u v then 0 else 1)
  else degree adj a.
Proof.
  destruct (id_eq_dec a u) as [->|N].
  - rewrite !degree_adjacent, is_edge_adjacent.
    unfold adjacent at 1. rewrite find_set_weight_same.
    rewrite size_subscript_assign.
    now destruct (StdMap.find v (adjacent adj u)).
  - unfold degree. now rewrite find_set_weight_other.
Qed.

Lemma degree_subscript adj v a :
  degree (StdMap.subscript v [] adj) a = degree adj a.
Proof. now rewrite !degree_adjacent, adjacent_subscript. Qed.

Lemma is_edge_set_weight adj u v w a b :
  is_edge (set_weight adj u v w) a b =
  if pair_eq_dec (a, b) (u, v) then true else is_edge adj a b.
Proof.
  rewrite !is_edge_lookup, lookup_set_weight.
  now destruct (pair_eq_dec (a, b) (u, v)).
Qed.
End Deltas.

(** X7. [add_vertex(v)] adds one to [num_vertex()] when [v] is new and nothing
    otherwise; [add_edge(u, v, w)], on either store, adds one for each of
    [u] and [v] that is new (one in all when they are the same). *)
Theorem num_vertex_after_insertion
  {V : Type} {IV : Ident V} (k : store_kind) (adj : Adjacency_list.Adj V)
  (u v : V) (w : Z) :
  Adjacency_list.num_vertex (Adjacency_list.add_vertex adj v) =
    Adjacency_list.num_vertex adj +
    (if Adjacency_list.is_vertex adj v then 0 else 1) /\
  Adjacency_list.num_vertex (add_edge_of k adj u v w) =
    Adjacency_list.num_vertex adj +
    (if Adjacency_list.is_vertex adj u then 0 else 1) +
    (if id_eq_dec v u then 0
     else if Adjacency_list.is_vertex adj v then 0 else 1).
Proof.
  split; [apply num_vertex_subscript|].
  destruct k; simpl.
  - unfold Adjacency_list.add_edge.
    rewrite !num_vertex_set_weight, is_vertex_set_weight.
    now destruct (id_eq_dec v u).
  - unfold Adjacency_list_directed.add_edge.
    rewrite num_vertex_subscript, num_vertex_set_weight, is_vertex_set_weight.
    now destruct (id_eq_dec v u).
Qed.

(** X8. After [add_edge(u, v, w)] the degree of [u] is one more when (u,v) was
    no edge and the same otherwise; on the undirected store the same holds
    of [v] and (v,u), on the directed store the degree of a [v] other than
    [u] does not change, in-degrees not being counted. *)
Theorem degree_after_add_edge
  {V : Type} {IV : Ident V} (k : store_kind) (adj : Adjacency_list.Adj V)
  (u v : V) (w : Z) :
  let g := add_edge_of k adj u v w in
  Adjacency_list.degree g u =
    Adjacency_list.degree adj u +
    (if Adjacency_list.is_edge adj u v then 0 else 1) /\
  match k with
  | Undirected =>
      Adjacency_list.degree g v =
      Adjacency_list.degree adj v +
      (if Adjacency_list.is_edge adj v u then 0 else 1)
  | Directed =>
      u <> v -> Adjacency_list.degree g v = Adjacency_list.degree adj v
  end.
Proof.
  cbv zeta. destruct k; simpl.
  - unfold Adjacency_list.add_edge.
    rewrite !degree_set_weight, !is_edge_set_weight.
    destruct (id_eq_dec u v) as [->|N].
    + destruct (id_eq_dec v v) as [_|N]; [|contradiction].
      destruct (pair_eq_dec (v, v) (v, v)) as [_|N]; [|contradiction].
      split; lia.
    + destruct (id_eq_dec v v) as [_|N']; [|contradiction].
      destruct (id_eq_dec u u) as [_|N']; [|contradiction].
      destruct (id_eq_dec v u) as [E|_]; [now elim N|].
      destruct (pair_eq_dec (v, u) (u, v)) as [E|_]; [congruence|].
      split; reflexivity.
  - unfold Adjacency_list_directed.add_edge.
    rewrite !degree_subscript, !degree_set_weight.
    destruct (id_eq_dec u u) as [_|N']; [|contradiction].
    split; [reflexivity|].
    intros N. destruct (id_eq_dec v u) as [E|_]; [now elim N|reflexivity].
Qed.

Lemma degree_after_add_edge_witness :
  let adj := Adjacency_list_directed.add_edge [] 1 2 5 in
  let g := Adjacency_list_directed.add_edge adj 3 1 5 in
  Adjacency_list.degree g 1 = Adjacency_list.degree adj 1.
Proof.
  cbv zeta.
  destruct (@degree_after_add_edge Z _ Directed
              (Adjacency_list_directed.add_edge [] 1 2 5) 3 1 5) as (_ & H).
  apply H. lia.
Defined.

(** X9. On the directed store [num_edge()] goes up by one when [add_edge]
    inserts a new edge and stays when it overwrites one, as long as the
    count fits a [size_t]. *)
Theorem directed_num_edge_after_add_edge
  {V : Type} {IV : Ident V} (adj : Adjacency_list.Adj V) (u v : V) (w : Z) :
  entry_sum adj + 1 < size_t_modulus ->
  Adjacency_list_directed.num_edge
    (Adjacency_list_directed.add_edge adj u v w) =
  Adjacency_list_directed.num_edge adj +
  (if Adjacency_list.is_edge adj u v then 0 else 1).
Proof.
  intros H. pose proof (entry_sum_nonneg adj) as P.
  assert (E : entry_sum (Adjacency_list_directed.add_edge adj u v w) =
              entry_sum adj + (if Adjacency_list.is_edge adj u v then 0 else 1)).
  { unfold Adjacency_list_directed.add_edge, StdMap.subscript.
    now rewrite entry_sum_try_emplace, entry_sum_set_weight. }
  unfold Adjacency_list_directed.num_edge.
  rewrite !count_entries_exact; [exact E|lia|].
  rewrite E. destruct (Adjacency_list.is_edge adj u v); lia.
Qed.

Lemma directed_num_edge_after_add_edge_witness :
  Adjacency_list_directed.num_edge
    (Adjacency_list_directed.add_edge
       (Adjacency_list_directed.add_edge [] 1 2 5) 2 1 5) = 2.
Proof.
  rewrite (@directed_num_edge_after_add_edge Z _
             (Adjacency_list_directed.add_edge [] 1 2 5) 2 1 5).
  - reflexivity.
  - reflexivity.
Defined.

(** X10. On an undirected store built by calls that insert no self-loop,
    [num_edge()] goes up by one when [add_edge] inserts a new edge between
    two different vertices and stays when it overwrites one, as long as the
    entries fit a [size_t]. *)
Theorem undirected_num_edge_after_add_edge
  {V : Type} {IV : Ident V} (cs : list (@call V)) (u v : V) (w : Z) :
  let adj := run Undirected cs Adjacency_list.default_graph in
  no_self_loop cs -> u <> v ->
  entry_sum adj + 2 < size_t_modulus ->
  Adjacency_list.num_edge (Adjacency_list.add_edge adj u v w) =
  Adjacency_list.num_edge adj +
  (if Adjacency_list.is_edge adj u v then 0 else 1).
Proof.
  cbv zeta. intros L N H.
  set (adj := run Undirected cs Adjacency_list.default_graph) in *.
  pose proof (entry_sum_nonneg adj) as P.
  pose proof (symmetric_run cs symmetric_default_graph) as S. fold adj in S.
  pose proof (even_entry_sum_run symmetric_default_graph L eq_refl) as Hev.
  fold adj in Hev. apply Z.even_spec in Hev. destruct Hev as [h Hh].
  pose proof (entry_sum_add_edge w S N) as E.
  unfold Adjacency_list.num_edge.
  rewrite !count_entries_exact, !shiftr_one; try lia.
  - rewrite E, Hh.
    replace (2 * h + 2 * (if Adjacency_list.is_edge adj u v then 0 else 1))
      with ((h + (if Adjacency_list.is_edge adj u v then 0 else 1)) * 2) by lia.
    rewrite Z.div_mul by lia.
    rewrite (Z.mul_comm 2 h), Z.div_mul by lia. reflexivity.
  - rewrite E. destruct (Adjacency_list.is_edge adj u v); lia.
Qed.

Lemma undirected_num_edge_after_add_edge_witness :
  Adjacency_list.num_edge
    (Adjacency_list.add_edge
       (run Undirected [Add_edge 1 2 5; Add_vertex 7]
            Adjacency_list.default_graph) 2 3 1) = 2.
Proof.
  rewrite (@undirected_num_edge_after_add_edge Z _
             [Add_edge 1 2 5; Add_vertex 7] 2 3 1).
  - reflexivity.
  - repeat constructor; simpl; lia.
  - lia.
  - reflexivity.
Defined.

(** ** Looking a vertex up and walking its neighbours *)

Section Neighbours.
Context {V : Type} {IV : Ident V}.
Implicit Types (adj : Adjacency_list.Adj V) (u v a b : V) (w : Z).

Import Adjacency_list.

Lemma adjacent_eq_same (o : option nat) (i j : nat) :
  adjacent_eq (mkAdjacent o i) (mkAdjacent o j) = Nat.eqb i j.
Proof.
  unfold adjacent_eq. simpl. destruct o as [p|]; [|reflexivity].
  now rewrite Nat.eqb_refl.
Qed.

Lemma adjacent_walk_step adj (fuel : nat) (it last : Adjacent_iterator) b w :
  adjacent_eq it last = false ->
  adjacent_dest adj it = Some b -> adjacent_weight adj it = Some w ->
  adjacent_walk adj (S fuel) it last =
  option_map (cons (b, w)) (adjacent_walk adj fuel (adjacent_incr it) last).
Proof. intros E D W. simpl. now rewrite E, D, W. Qed.

Lemma adjacent_walk_range adj (o : option nat) (pre suf : Edges V) :
  neighbours_at adj o = pre ++ suf ->
  adjacent_walk adj (S (length suf)) (mkAdjacent o (length pre))
                (mkAdjacent o (length (pre ++ suf))) = Some suf.
Proof.
  revert pre. induction suf as [|[b w] suf IH]; intros pre E.
  - simpl. now rewrite adjacent_eq_same, app_nil_r, Nat.eqb_refl.
  - cbn [length]. rewrite (@adjacent_walk_step _ _ _ _ b w).
    + specialize (IH (pre ++ [(b, w)])).
      rewrite <- app_assoc in IH. cbn [app] in IH. specialize (IH E).
      replace (length (pre ++ [(b, w)])) with (S (length pre)) in IH
        by (rewrite length_app; simpl; lia).
      change (adjacent_incr (mkAdjacent o (length pre)))
        with (mkAdjacent o (S (length pre))).
      now rewrite IH.
    + rewrite adjacent_eq_same, length_app. cbn [length].
      apply Nat.eqb_neq. lia.
    + unfold adjacent_dest. cbn [owner acur].
      now rewrite E, nth_error_app2, Nat.sub_diag by lia.
    + unfold adjacent_weight. cbn [owner acur].
      now rewrite E, nth_error_app2, Nat.sub_diag by lia.
Qed.

Lemma adjacent_walk_all adj (o : option nat) :
  adjacent_walk adj (S (length (neighbours_at adj o))) (mkAdjacent o 0)
                (mkAdjacent o (length (neighbours_at adj o))) =
  Some (neighbours_at adj o).
Proof. exact (adjacent_walk_range adj o [] (neighbours_at adj o) eq_refl). Qed.

Lemma neighbour_iteration_adjacent adj v :
  neighbour_iteration adj v = Some (adjacent adj v).
Proof.
  unfold neighbour_iteration, adjacent_iterators, adjacent.
  pose proof (find_pos_spec v adj) as P.
  destruct (StdMap.find v adj) as [nbrs|].
  - assert (L : (StdMap.find_pos v adj < length adj)%nat).
    { apply nth_error_Some. now rewrite P. }
    destruct (Nat.eqb_spec (StdMap.find_pos v adj) (length adj)) as [E|_];
      [lia|].
    cbn [negb fst snd acur].
    assert (N : neighbours_at adj (Some (StdMap.find_pos v adj)) = nbrs).
    { unfold neighbours_at. now rewrite P. }
    rewrite <- N. apply adjacent_walk_all.
  - rewrite P, Nat.eqb_refl. reflexivity.
Qed.

Lemma ordered_adjacent adj v : well_formed adj -> StdMap.ordered (adjacent adj v).
Proof.
  intros [_ I]. unfold adjacent.
  destruct (StdMap.find v adj) as [nbrs|] eqn:F; [|constructor].
  rewrite Forall_forall in I. apply (I (v, nbrs)). now apply find_Some_In.
Qed.

Lemma In_adjacent_lookup adj v b w :
  well_formed adj -> (In (b, w) (adjacent adj v) <-> lookup adj v b = Some w).
Proof.
  intros WF. rewrite lookup_adjacent. split.
  - apply find_In_ordered. now apply ordered_adjacent.
  - apply find_Some_In.
Qed.

Lemma lookup_edge_weight adj a b w :
  lookup adj a b = Some w <-> is_edge adj a b = true /\ weight adj a b = w.
Proof.
  rewrite is_edge_lookup, weight_lookup.
  destruct (lookup adj a b) as [x|]; split.
  - now intros [= ->].
  - now intros [_ ->].
  - discriminate.
  - now intros [? _].
Qed.
End Neighbours.

(** X11. [vertex(v)] is an iterator at [v], with the neighbours of [v] between
    its [begin()] and [end()], when [v] is a vertex, and is [end()] when it
    is not. *)
Theorem vertex_lookup
  {V : Type} {IV : Ident V} (adj : Adjacency_list.Adj V) (v : V) :
  (Adjacency_list.is_vertex adj v = true ->
   Adjacency_list.deref adj (Adjacency_list.vertex adj v) = Some v /\
   Adjacency_list.iter_eq (Adjacency_list.vertex adj v)
                          (Adjacency_list.end_ adj) = false /\
   Adjacency_list.adjacent_walk adj
     (S (Adjacency_list.acur
           (Adjacency_list.vertex_end adj (Adjacency_list.vertex adj v))))
     (Adjacency_list.vertex_begin (Adjacency_list.vertex adj v))
     (Adjacency_list.vertex_end adj (Adjacency_list.vertex adj v)) =
   Some (Adjacency_list.adjacent adj v)) /\
  (Adjacency_list.is_vertex adj v = false ->
   Adjacency_list.vertex adj v = Adjacency_list.end_ adj).
Proof.
  unfold Adjacency_list.is_vertex, Adjacency_list.vertex, Adjacency_list.end_,
    Adjacency_list.deref, Adjacency_list.iter_eq, Adjacency_list.adjacent,
    Adjacency_list.vertex_begin, Adjacency_list.vertex_end.
  cbn [Adjacency_list.cur Adjacency_list.acur].
  pose proof (find_pos_spec v adj) as P.
  destruct (StdMap.find v adj) as [nbrs|]; split; try discriminate.
  - intros _. rewrite P. split; [reflexivity|]. split.
    + apply Nat.eqb_neq. intros E.
      assert (L : (StdMap.find_pos v adj < length adj)%nat)
        by (apply nth_error_Some; now rewrite P).
      lia.
    + assert (N : Adjacency_list.neighbours_at adj
                    (Some (StdMap.find_pos v adj)) = nbrs).
      { unfold Adjacency_list.neighbours_at. now rewrite P. }
      rewrite <- N. apply adjacent_walk_all.
  - intros _. now rewrite P.
Qed.

Lemma vertex_lookup_witness :
  let adj := Adjacency_list.add_edge (Adjacency_list.add_edge [] 5 2 1) 2 9 3 in
  Adjacency_list.deref adj (Adjacency_list.vertex adj 5) = Some 5 /\
  Adjacency_list.vertex adj 4 = Adjacency_list.end_ adj.
Proof.
  cbv zeta.
  destruct (@vertex_lookup Z _
              (Adjacency_list.add_edge (Adjacency_list.add_edge [] 5 2 1) 2 9 3)
              5) as (A & _).
  destruct (@vertex_lookup Z _
              (Adjacency_list.add_edge (Adjacency_list.add_edge [] 5 2 1) 2 9 3)
              4) as (_ & B).
  split.
  - apply A. reflexivity.
  - apply B. reflexivity.
Defined.

(** X12. The loop over [adjacent(v)] ends and visits [degree(v)] neighbours, none
    when [v] is absent; in a store whose maps are ordered it visits the
    neighbours in strictly increasing order, and [b] with weight [w] is
    visited exactly when (v,b) is an edge of weight [w]. *)
Theorem neighbour_iteration_visits_edges
  {V : Type} {IV : Ident V} (adj : Adjacency_list.Adj V) (v : V) :
  exists l : list (V * Z),
    Adjacency_list.neighbour_iteration adj v = Some l /\
    Z.of_nat (length l) = Adjacency_list.degree adj v /\
    (Adjacency_list.is_vertex adj v = false -> l = []) /\
    (well_formed adj ->
     StronglySorted (fun a b => id_lt a b = true) (List.map fst l) /\
     forall b w,
       In (b, w) l <->
       Adjacency_list.is_edge adj v b = true /\
       Adjacency_list.weight adj v b = w).
Proof.
  exists (Adjacency_list.adjacent adj v).
  split; [apply neighbour_iteration_adjacent|].
  split; [now rewrite degree_adjacent|].
  split.
  - unfold Adjacency_list.is_vertex, Adjacency_list.adjacent.
    now destruct (StdMap.find v adj).
  - intros WF. split; [exact (ordered_adjacent v WF)|].
    intros b w. now rewrite (In_adjacent_lookup v b w WF), lookup_edge_weight.
Qed.

Lemma neighbour_iteration_visits_edges_witness :
  exists l : list (Z * Z),
    Adjacency_list.neighbour_iteration
      (Adjacency_list.add_edge (Adjacency_list.add_edge [] 5 2 1) 2 9 3) 2
    = Some l /\
    StronglySorted (fun a b => (a <? b) = true) (List.map fst l) /\
    Adjacency_list.neighbour_iteration
      (Adjacency_list.add_edge (Adjacency_list.add_edge [] 5 2 1) 2 9 3) 4
    = Some [].
Proof.
  destruct (@neighbour_iteration_visits_edges Z _
              (Adjacency_list.add_edge (Adjacency_list.add_edge [] 5 2 1) 2 9 3)
              2) as (l & E & _ & _ & S).
  destruct (@neighbour_iteration_visits_edges Z _
              (Adjacency_list.add_edge (Adjacency_list.add_edge [] 5 2 1) 2 9 3)
              4) as (l' & E' & _ & N & _).
  exists l. split; [exact E|]. split.
  - apply S. vm_compute. split; repeat constructor.
  - rewrite E', N; reflexivity.
Defined.

(** ** The nested traversal *)

Section Nested.
Context {V : Type} {IV : Ident V}.
Implicit Types (adj pre suf : Adjacency_list.Adj V) (u v a b : V) (w : Z).

Import Adjacency_list.

(** The entries of the nodes, each with its vertex. *)
Lemma nested_walk_step adj (fuel : nat) (it last : Vertex_iterator) v
      (nbrs : Edges V) :
  iter_eq it last = false -> deref adj it = Some v ->
  adjacent_walk adj (S (acur (vertex_end adj it)))
                (vertex_begin it) (vertex_end adj it) = Some nbrs ->
  nested_walk adj (S fuel) it last =
  option_map (app (List.map (fun e => (v, fst e, snd e)) nbrs))
             (nested_walk adj fuel (incr it) last).
Proof.
  intros E D W. cbn [nested_walk]. rewrite E, D, W.
  now destruct (nested_walk adj fuel (incr it) last).
Qed.

Lemma nested_walk_range pre suf :
  nested_walk (pre ++ suf) (S (length suf)) (mkIter (length pre))
              (end_ (pre ++ suf)) =
  Some (flat_map (fun n => List.map (fun e => (fst n, fst e, snd e)) (snd n))
                 suf).
Proof.
  revert pre. induction suf as [|[v nbrs] suf IH]; intros pre.
  - simpl. unfold iter_eq, end_. simpl.
    now rewrite app_nil_r, Nat.eqb_refl.
  - cbn [length]. rewrite (@nested_walk_step _ _ _ _ v nbrs).
    + specialize (IH (pre ++ [(v, nbrs)])).
      rewrite <- app_assoc in IH. cbn [app] in IH.
      replace (length (pre ++ [(v, nbrs)])) with (S (length pre)) in IH
        by (rewrite length_app; simpl; lia).
      change (incr (mkIter (length pre))) with (mkIter (S (length pre))).
      rewrite IH. reflexivity.
    + unfold iter_eq, end_. cbn [cur]. rewrite length_app. cbn [length].
      apply Nat.eqb_neq. lia.
    + unfold deref. cbn [cur].
      now rewrite nth_error_app2, Nat.sub_diag by lia.
    + assert (N : neighbours_at (pre ++ (v, nbrs) :: suf) (Some (length pre))
                  = nbrs).
      { unfold neighbours_at.
        now rewrite nth_error_app2, Nat.sub_diag by lia. }
      unfold vertex_begin, vertex_end. cbn [cur acur].
      pose proof (adjacent_walk_all (pre ++ (v, nbrs) :: suf)
                                    (Some (length pre))) as W.
      rewrite N in W. rewrite N. exact W.
Qed.

Lemma length_entries adj :
  Z.of_nat
    (length (flat_map
               (fun n => List.map (fun e => (fst n, fst e, snd e)) (snd n))
               adj)) = entry_sum adj.
Proof.
  unfold entry_sum. induction adj as [|[v nbrs] adj IH]; simpl; [reflexivity|].
  rewrite length_app, length_map, Nat2Z.inj_add, IH. reflexivity.
Qed.

Lemma In_entries_lookup adj a b w :
  well_formed adj ->
  (In (a, b, w)
      (flat_map (fun n => List.map (fun e => (fst n, fst e, snd e)) (snd n))
                adj) <->
   lookup adj a b = Some w).
Proof.
  intros [O I]. rewrite in_flat_map. unfold lookup. split.
  - intros [[v nbrs] [Hn He]]. simpl in He.
    apply in_map_iff in He. destruct He as [[b' w'] [[= -> -> ->] He]].
    rewrite (find_In_ordered _ _ O Hn).
    apply find_In_ordered; [|exact He].
    rewrite Forall_forall in I. exact (I _ Hn).
  - destruct (StdMap.find a adj) as [nbrs|] eqn:F; [|discriminate].
    intros Fb. exists (a, nbrs). split; [now apply find_Some_In|].
    simpl. apply in_map_iff. exists (b, w). split; [reflexivity|].
    now apply find_Some_In.
Qed.
End Nested.

(** X13. The nested loop over the vertices and, through [begin()] and [end()] of
    the vertex iterator, over the neighbours of each ends and visits as many
    entries as the neighbour sets hold together, which is what the directed
    [num_edge()] returns; in a store whose maps are ordered it visits
    (a,b) with weight [w] exactly when (a,b) is an edge of weight [w]. *)
Theorem nested_iteration_visits_entries
  {V : Type} {IV : Ident V} (adj : Adjacency_list.Adj V) :
  exists l : list (V * V * Z),
    Adjacency_list.nested_iteration adj = Some l /\
    Z.of_nat (length l) = entry_sum adj /\
    (entry_sum adj < size_t_modulus ->
     Adjacency_list_directed.num_edge adj = Z.of_nat (length l)) /\
    (well_formed adj ->
     forall a b w,
       In (a, b, w) l <->
       Adjacency_list.is_edge adj a b = true /\
       Adjacency_list.weight adj a b = w).
Proof.
  eexists. split; [exact (nested_walk_range [] adj)|].
  split; [apply length_entries|].
  split.
  - intros H. rewrite length_entries.
    now apply count_entries_exact.
  - intros WF a b w.
    now rewrite (In_entries_lookup a b w WF), lookup_edge_weight.
Qed.

Lemma nested_iteration_visits_entries_witness :
  exists l : list (Z * Z * Z),
    Adjacency_list.nested_iteration
      (Adjacency_list_directed.add_edge
         (Adjacency_list_directed.add_edge [] 5 2 1) 2 9 3) = Some l /\
    Z.of_nat (length l) = 2 /\ In (2, 9, 3) l.
Proof.
  destruct (@nested_iteration_visits_entries Z _
              (Adjacency_list_directed.add_edge
                 (Adjacency_list_directed.add_edge [] 5 2 1) 2 9 3))
    as (l & E & L & N & M).
  exists l. split; [exact E|]. split.
  - rewrite <- N; reflexivity.
  - apply M.
    + vm_compute. split; repeat constructor.
    + split; reflexivity.
Defined.

(** ** Writing through [weight()] *)

(** X14. Assigning through [weight()] of a mutable neighbour iterator that
    designates the entry (u,b) of a store with ordered maps sets the weight
    of (u,b) and changes no other entry, not even (b,u) on the undirected
    store; the vertices and the edges are what they were. *)
Theorem weight_reference_edits_one_entry
  {V : Type} {IV : Ident V} (adj : Adjacency_list.Adj V)
  (it : Adjacency_list.Adjacent_iterator) (p : nat) (u b : V) (x : Z) :
  well_formed adj ->
  Adjacency_list.owner it = Some p ->
  Adjacency_list.deref adj (Adjacency_list.mkIter p) = Some u ->
  Adjacency_list.adjacent_dest adj it = Some b ->
  exists adj',
    Adjacency_list.adjacent_set_weight adj it x = Some adj' /\
    Adjacency_list.weight adj' u b = x /\
    (forall a c, (a, c) <> (u, b) ->
                 Adjacency_list.weight adj' a c = Adjacency_list.weight adj a c) /\
    (forall a c, Adjacency_list.is_edge adj' a c = Adjacency_list.is_edge adj a c) /\
    vertices adj' = vertices adj.
Proof.
  intros [O I] Ho Hu Hb.
  unfold Adjacency_list.deref in Hu. cbn [Adjacency_list.cur] in Hu.
  unfold Adjacency_list.adjacent_dest in Hb. rewrite Ho in Hb.
  unfold Adjacency_list.adjacent_set_weight. rewrite Ho.
  unfold Adjacency_list.neighbours_at in *.
  destruct (nth_error adj p) as [[u' nbrs]|] eqn:Np; [|discriminate].
  simpl in Hu. injection Hu as ->. cbn [snd] in *.
  destruct (nth_error nbrs (Adjacency_list.acur it)) as [[b' w0]|] eqn:Ni;
    [|discriminate].
  simpl in Hb. injection Hb as ->.
  assert (On : StdMap.ordered nbrs).
  { rewrite Forall_forall in I. apply (I (u, nbrs)). eapply nth_error_In, Np. }
  destruct (@write_at_update _ _ _ _ _ _ x _ On Ni) as [W1 F1].
  destruct (@write_at_update _ _ _ _ _ _ (StdMap.update b (fun _ => x) nbrs)
                             _ O Np) as [W2 F2].
  rewrite W1, W2. eexists. split; [reflexivity|].
  assert (L : forall a c,
             lookup (StdMap.update u
                       (fun _ => StdMap.update b (fun _ => x) nbrs) adj) a c =
             if pair_eq_dec (a, c) (u, b) then Some x else lookup adj a c).
  { intros a c. unfold lookup.
    destruct (id_eq_dec a u) as [->|Na].
    - rewrite find_update_same, F2. cbn [option_map].
      destruct (id_eq_dec c b) as [->|Nc].
      + rewrite find_update_same, F1. cbn [option_map].
        now destruct (pair_eq_dec (u, b) (u, b)).
      + rewrite find_update_other by exact Nc.
        destruct (pair_eq_dec (u, c) (u, b)) as [[= E]|_];
          [contradiction|reflexivity].
    - rewrite find_update_other by exact Na.
      destruct (pair_eq_dec (a, c) (u, b)) as [[= E _]|_];
        [contradiction|reflexivity]. }
  split; [|split; [|split]].
  - rewrite weight_lookup, L. now destruct (pair_eq_dec (u, b) (u, b)).
  - intros a c N. rewrite !weight_lookup, L.
    now destruct (pair_eq_dec (a, c) (u, b)).
  - intros a c. rewrite !is_edge_lookup, L.
    destruct (pair_eq_dec (a, c) (u, b)) as [[= -> ->]|_]; [|reflexivity].
    unfold lookup. now rewrite F2, F1.
  - unfold vertices. apply keys_update.
Qed.

Lemma weight_reference_edits_one_entry_witness :
  let adj := Adjacency_list.add_edge [] 1 2 5 in
  exists adj',
    Adjacency_list.adjacent_set_weight
      adj (fst (Adjacency_list.adjacent_iterators adj 1)) 8 = Some adj' /\
    Adjacency_list.weight adj' 1 2 = 8 /\
    Adjacency_list.weight adj' 2 1 = 5.
Proof.
  cbv zeta.
  destruct (@weight_reference_edits_one_entry Z _
              (Adjacency_list.add_edge [] 1 2 5)
              (fst (Adjacency_list.adjacent_iterators
                      (Adjacency_list.add_edge [] 1 2 5) 1))
              0%nat 1 2 8) as (adj' & E & W & F & _).
  - vm_compute. split; repeat constructor.
  - reflexivity.
  - reflexivity.
  - reflexivity.
  - exists adj'. split; [exact E|]. split; [exact W|].
    rewrite (F 2 1); [reflexivity|]. intros H. discriminate H.
Defined.

(** ** Printing *)

Section Printing.
Import Adjacency_list.
#[local] Arguments Ascii.eqb : simpl never.
Implicit Types (c : Ascii.ascii) (os : String.string) (adj : Adj Z).

Lemma count_char_append c (s1 s2 : String.string) :
  count_char c (String.append s1 s2) = (count_char c s1 + count_char c s2)%nat.
Proof.
  induction s1 as [|a s1 IH]; simpl; [reflexivity|]. rewrite IH. lia.
Qed.

(** A character that is no digit and no minus sign is not written for an
    [int]. *)
Lemma count_char_put_int c (z : Z) :
  forallb (fun a => negb (Ascii.eqb a c))
          ["0"; "1"; "2"; "3"; "4"; "5"; "6"; "7"; "8"; "9"; "-"]%char = true ->
  count_char c (put_int z) = O.
Proof.
  intros H. simpl in H.
  repeat (apply andb_prop in H; destruct H as [?H H]).
  repeat match goal with
         | H : negb _ = true |- _ => apply negb_true_iff in H
         end.
  assert (U : forall d, count_char c (DecimalString.NilEmpty.string_of_uint d)
                        = O).
  { induction d; simpl; rewrite ?IHd;
      repeat match goal with
             | H : Ascii.eqb _ c = false |- _ => rewrite H; clear H
             end; reflexivity. }
  unfold put_int. destruct (Z.to_int z) as [d|d]; simpl; [apply U|].
  rewrite U.
  repeat match goal with
         | H : Ascii.eqb _ c = false |- _ => rewrite H; clear H
         end; reflexivity.
Qed.

Lemma count_print_neighbours c os (nbrs : Edges Z) :
  (forall z, count_char c (put_int z) = O) ->
  count_char c (print_neighbours os nbrs) =
  (count_char c os +
   length nbrs * ((if Ascii.eqb ":" c then 1 else 0) +
                  (if Ascii.eqb "," c then 1 else 0)))%nat.
Proof.
  intros N. unfold print_neighbours. revert os.
  induction nbrs as [|[b w] nbrs IH]; intros os; simpl fold_left.
  - simpl. lia.
  - rewrite IH, !count_char_append. cbn [fst snd put Streamable_int].
    rewrite !N. cbn [count_char length]. lia.
Qed.

Lemma count_print c os adj :
  (forall z, count_char c (put_int z) = O) ->
  count_char c (print os adj) =
  (count_char c os +
   length adj * ((if Ascii.eqb "(" c then 1 else 0) +
                 (if Ascii.eqb ")" c then 1 else 0) +
                 (if Ascii.eqb " " c then 1 else 0)) +
   length (flat_map snd adj) * ((if Ascii.eqb ":" c then 1 else 0) +
                                (if Ascii.eqb "," c then 1 else 0)) +
   length (filter (fun n => negb (StdMap.empty (snd n))) adj) *
   (if Ascii.eqb "008" c then 1 else 0))%nat.
Proof.
  intros N. unfold print. revert os.
  induction adj as [|[v nbrs] adj IH]; intros os; simpl fold_left.
  - simpl. lia.
  - rewrite IH. cbn [fst snd flat_map filter].
    rewrite length_app.
    destruct nbrs as [|n nbrs]; cbn [StdMap.empty negb].
    + rewrite !count_char_append. cbn [put Streamable_int].
      rewrite N. cbn [count_char length app]. lia.
    + rewrite !count_char_append, count_print_neighbours by exact N.
      rewrite !count_char_append. cbn [put Streamable_int].
      rewrite N. cbn [count_char length]. lia.
Qed.

Lemma length_flat_entries adj :
  Z.of_nat (length (flat_map snd adj)) = entry_sum adj.
Proof.
  unfold entry_sum. induction adj as [|[v nbrs] adj IH]; simpl; [reflexivity|].
  rewrite length_app, Nat2Z.inj_add, IH. reflexivity.
Qed.
End Printing.

Section PrintingOrder.
Import Adjacency_list.
Implicit Types (os : String.string) (adj pre : Adj Z).

Lemma print_app os pre adj : print os (pre ++ adj) = print (print os pre) adj.
Proof. unfold print. apply fold_left_app. Qed.

Lemma print_neighbours_app os (nbrs nbrs' : Edges Z) :
  print_neighbours os (nbrs ++ nbrs') =
  print_neighbours (print_neighbours os nbrs) nbrs'.
Proof. unfold print_neighbours. apply fold_left_app. Qed.

Lemma empty_snoc (nbrs : Edges Z) (n : Z * Z) : StdMap.empty (nbrs ++ [n]) = false.
Proof. now destruct nbrs. Qed.
End PrintingOrder.

(** X15. What [os << g] writes for a store of [int] vertices holds one pair of
    parentheses per vertex and one colon and one comma per entry of a
    neighbour set, and one backspace character per vertex that has
    neighbours.  The vertices are written in order after what the stream
    held; a vertex without neighbours is written as its identifier and
    ["() "]; for a vertex with neighbours the last characters written are
    those of its last neighbour, a colon, the weight, the comma, the
    backspace and [") "]: the comma after the last neighbour is written and
    stays in the stream, followed by the backspace. *)
Theorem print_writes_every_comma (adj : Adjacency_list.Adj Z) :
  let out := Adjacency_list.print ""%string adj in
  (Z.of_nat (count_char "("%char out) = Adjacency_list.num_vertex adj /\
   Z.of_nat (count_char ")"%char out) = Adjacency_list.num_vertex adj /\
   Z.of_nat (count_char ":"%char out) = entry_sum adj /\
   Z.of_nat (count_char ","%char out) = entry_sum adj /\
   count_char "008"%char out =
   length (filter (fun n => negb (StdMap.empty (snd n))) adj)) /\
  (forall os, Adjacency_list.print os [] = os) /\
  (forall os v,
      Adjacency_list.print os (adj ++ [(v, [])]) =
      String.append
        (String.append (String.append (Adjacency_list.print os adj) (put v))
                       "("%string)
        ") "%string) /\
  (forall os v nbrs b w,
      Adjacency_list.print os (adj ++ [(v, nbrs ++ [(b, w)])]) =
      String.append
        (String.append
           (String.append
              (String.append
                 (String.append
                    (String.append
                       (Adjacency_list.print_neighbours
                          (String.append
                             (String.append (Adjacency_list.print os adj)
                                            (put v))
                             "("%string)
                          nbrs)
                       (put b))
                    ":"%string)
                 (put_int w))
              ","%string)
           (String.String "008"%char String.EmptyString))
        ") "%string).
Proof.
  cbv zeta. split; [|split; [reflexivity|split]].
  - rewrite <- length_flat_entries.
    unfold Adjacency_list.num_vertex, StdMap.size.
    repeat split;
      rewrite count_print by (intros z; now apply count_char_put_int);
      cbn [Ascii.eqb Bool.eqb count_char]; simpl; f_equal; lia.
  - intros os v. rewrite print_app. reflexivity.
  - intros os v nbrs b w. rewrite print_app.
    unfold Adjacency_list.print at 1. cbn [fold_left fst snd].
    rewrite empty_snoc. cbn [negb].
    rewrite print_neighbours_app. reflexivity.
Qed.

Example print_one_edge :
  Adjacency_list.print ""%string (Adjacency_list.add_edge [] 1 20 (-5)) =
  String.append "1(20:-5,"%string
    (String.String "008"%char
       (String.append ") 20(1:-5,"%string
          (String.String "008"%char ") "%string))).
Proof. reflexivity. Qed.

(** ** The least and the greatest vertex *)

(** X16. [min_vertex()] after [add_vertex(v)] is [v] when the graph was empty or
    [v] is smaller than the least vertex, and the least vertex it had
    otherwise. *)
Theorem min_vertex_after_add_vertex
  {V : Type} {IV : Ident V} (adj : Adjacency_list.Adj V) (v : V) :
  Adjacency_list.min_vertex (Adjacency_list.add_vertex adj v) =
  if StdMap.empty adj then v
  else if id_lt v (Adjacency_list.min_vertex adj) then v
       else Adjacency_list.min_vertex adj.
Proof.
  unfold Adjacency_list.add_vertex, StdMap.subscript, Adjacency_list.min_vertex.
  destruct adj as [|[m nbrs] adj]; simpl; [reflexivity|].
  destruct (id_lt v m) eqn:E1; simpl; [reflexivity|].
  destruct (id_lt m v) eqn:E2; reflexivity.
Qed.

(** X17. In a graph with vertices and an ordered vertex map, the iterator before
    [end()] designates the greatest vertex, and so does [rbegin()]. *)
Theorem last_vertex_is_greatest
  {V : Type} {IV : Ident V} (adj : Adjacency_list.Adj V) :
  StdMap.ordered adj -> StdMap.empty adj = false ->
  exists m : V,
    Adjacency_list.deref adj (Adjacency_list.decr (Adjacency_list.end_ adj))
    = Some m /\
    Adjacency_list.rderef adj (Adjacency_list.rbegin adj) = Some m /\
    forall v, Adjacency_list.is_vertex adj v = true ->
              v = m \/ id_lt v m = true.
Proof.
  intros O E.
  destruct (exists_last (l:=adj)) as (pre & [m nbrs] & ->).
  { intros ->. discriminate E. }
  exists m.
  unfold Adjacency_list.deref, Adjacency_list.rderef, Adjacency_list.decr,
    Adjacency_list.end_, Adjacency_list.rbegin.
  cbn [Adjacency_list.cur]. rewrite length_app. cbn [length].
  rewrite Nat.add_1_r. cbn [Nat.pred].
  rewrite nth_error_app2, Nat.sub_diag by lia.
  split; [reflexivity|]. split; [reflexivity|].
  intros v Hv. apply (is_vertex_iff_In _ O) in Hv.
  pose proof (StronglySorted_rev O) as R.
  unfold vertices, StdMap.keys in Hv, R.
  rewrite List.map_app in Hv, R. rewrite rev_app_distr in R.
  cbn [List.map rev app fst] in Hv, R.
  apply in_app_or in Hv. destruct Hv as [Hv|[->|[]]]; [right|now left].
  inversion R as [|? ? _ A]; subst.
  rewrite Forall_forall in A. apply A. now apply -> in_rev.
Qed.

Lemma last_vertex_is_greatest_witness :
  exists m : Z,
    Adjacency_list.deref
      (Adjacency_list.add_edge (Adjacency_list.add_edge [] 5 2 1) 2 9 3)
      (Adjacency_list.decr
         (Adjacency_list.end_
            (Adjacency_list.add_edge (Adjacency_list.add_edge [] 5 2 1) 2 9 3)))
    = Some m /\ (5 = m \/ (5 <? m) = true).
Proof.
  destruct (@last_vertex_is_greatest Z _
              (Adjacency_list.add_edge (Adjacency_list.add_edge [] 5 2 1) 2 9 3))
    as (m & D & _ & G).
  - vm_compute. repeat constructor.
  - reflexivity.
  - exists m. split; [exact D|]. apply G. reflexivity.
Defined.

(** ** Pairs that are no edge *)

Section NoEdge.
Context {V : Type} {IV : Ident V}.
Implicit Types (adj : Adjacency_list.Adj V) (u v a b : V) (w : Z).

Import Adjacency_list.

Lemma lookup_exec_other k adj (c : call) u v :
  match c with
  | Add_vertex _ => True
  | Add_edge a b _ =>
      (a, b) <> (u, v) /\ (k = Undirected -> (a, b) <> (v, u))
  end ->
  lookup (exec k adj c) u v = lookup adj u v.
Proof.
  destruct c as [x|a b w]; cbn [exec]; intros H.
  - unfold add_vertex. apply lookup_subscript.
  - destruct H as [N1 N2]. rewrite lookup_add_edge_of.
    destruct (pair_eq_dec (u, v) (a, b)) as [E|_]; [now elim N1|].
    destruct k; [|reflexivity].
    destruct (pair_eq_dec (u, v) (b, a)) as [E|_]; [|reflexivity].
    exfalso. apply (N2 eq_refl). congruence.
Qed.

Lemma lookup_run_other k (cs : list call) adj u v :
  edge_never_inserted k u v cs ->
  lookup (run k cs adj) u v = lookup adj u v.
Proof.
  unfold run, edge_never_inserted. revert adj.
  induction cs as [|c cs IH]; simpl; intros adj H; [reflexivity|].
  inversion H as [|? ? Hc Hcs]; subst.
  rewrite IH by exact Hcs. now apply lookup_exec_other.
Qed.

Lemma lookup_stored adj u v w : lookup adj u v = Some w -> stored adj u v.
Proof.
  unfold lookup, stored.
  destruct (StdMap.find u adj) as [nbrs|] eqn:F; [|discriminate].
  intros Fv. exists nbrs, w. split; now apply find_Some_In.
Qed.

Lemma not_stored_lookup adj u v : ~ stored adj u v -> lookup adj u v = None.
Proof.
  intros N. destruct (lookup adj u v) as [w|] eqn:L; [|reflexivity].
  elim N. now apply lookup_stored with w.
Qed.
End NoEdge.

(** C5. In either store, an identifier that no call has named is no vertex,
    has degree 0, and is the source of no edge and of weight 0 only; a pair
    that no [add_edge] call has inserted is no edge and has weight 0.  In
    any graph whatever, a pair for which the store holds no entry is no edge
    and has weight 0, an identifier that is no vertex has degree 0 and is
    the source of no edge and of weight 0 only, and a pair that is no edge
    has weight 0.  Every query is a total function: it has a result on every
    graph and every identifier. *)
Theorem absent_queries_return_sentinels
  {V : Type} {IV : Ident V} (k : store_kind) (cs : list (@call V))
  (adj : Adjacency_list.Adj V) (u v : V) :
  (never_inserted u cs ->
   let g := run k cs Adjacency_list.default_graph in
   Adjacency_list.is_vertex g u = false /\
   Adjacency_list.degree g u = 0 /\
   Adjacency_list.is_edge g u v = false /\
   Adjacency_list.weight g u v = 0) /\
  (edge_never_inserted k u v cs ->
   let g := run k cs Adjacency_list.default_graph in
   Adjacency_list.is_edge g u v = false /\
   Adjacency_list.weight g u v = 0) /\
  (~ stored adj u v ->
   Adjacency_list.is_edge adj u v = false /\
   Adjacency_list.weight adj u v = 0) /\
  (Adjacency_list.is_vertex adj u = false ->
   Adjacency_list.degree adj u = 0 /\
   Adjacency_list.is_edge adj u v = false /\
   Adjacency_list.weight adj u v = 0) /\
  (Adjacency_list.is_edge adj u v = false ->
   Adjacency_list.weight adj u v = 0).
Proof.
  split; [|split; [|split; [|split]]].
  - intros H. cbv zeta.
    assert (E : Adjacency_list.is_vertex
                  (run k cs Adjacency_list.default_graph) u = false)
      by now rewrite is_vertex_run.
    split; [exact E|]. now apply absent_vertex.
  - intros H. cbv zeta.
    rewrite is_edge_lookup, weight_lookup, (lookup_run_other _ H).
    split; reflexivity.
  - intros N. rewrite is_edge_lookup, weight_lookup, (not_stored_lookup N).
    split; reflexivity.
  - apply absent_vertex.
  - apply absent_edge.
Qed.

Lemma absent_queries_return_sentinels_witness :
  let g := run Directed [Add_edge 1 2 5; Add_vertex 4]
               Adjacency_list.default_graph in
  (Adjacency_list.is_vertex g 3 = false /\ Adjacency_list.degree g 3 = 0) /\
  (Adjacency_list.is_edge g 1 4 = false /\ Adjacency_list.weight g 1 4 = 0) /\
  Adjacency_list.is_edge g 1 3 = false /\
  Adjacency_list.degree g 3 = 0 /\
  Adjacency_list.weight g 2 1 = 0.
Proof.
  cbv zeta.
  pose proof (@absent_queries_return_sentinels Z _ Directed
                [Add_edge 1 2 5; Add_vertex 4]
                (run Directed [Add_edge 1 2 5; Add_vertex 4]
                     Adjacency_list.default_graph) 3 1) as (A & _ & _ & D & _).
  pose proof (@absent_queries_return_sentinels Z _ Directed
                [Add_edge 1 2 5; Add_vertex 4]
                (run Directed [Add_edge 1 2 5; Add_vertex 4]
                     Adjacency_list.default_graph) 1 4) as (_ & B & _ & _ & _).
  pose proof (@absent_queries_return_sentinels Z _ Directed
                [Add_edge 1 2 5; Add_vertex 4]
                (run Directed [Add_edge 1 2 5; Add_vertex 4]
                     Adjacency_list.default_graph) 1 3) as (_ & _ & C & _ & _).
  pose proof (@absent_queries_return_sentinels Z _ Directed
                [Add_edge 1 2 5; Add_vertex 4]
                (run Directed [Add_edge 1 2 5; Add_vertex 4]
                     Adjacency_list.default_graph) 2 1) as (_ & _ & _ & _ & E).
  split; [|split; [|split; [|split]]].
  - destruct A as (A1 & A2 & _); [|split; [exact A1 | exact A2]].
    repeat constructor; simpl; lia.
  - apply B. repeat constructor; discriminate.
  - apply C. intros (nbrs & w & H1 & H2).
    vm_compute in H1.
    destruct H1 as [H1|[H1|[H1|[]]]]; try discriminate H1.
    injection H1 as <-.
    destruct H2 as [H2|[]]. discriminate H2.
  - destruct D as (D1 & _); [reflexivity | exact D1].
  - apply E. reflexivity.
Defined.
